(** * Team-Generator: pairing schedules for eight players

    A shallow embedding of [main.js] (classes [PossibleTeam], [Pairing] and
    [TeamConfigurations]) and the properties of the schedule it generates.

    Conventions of the embedding:
    - a player identifier is a JavaScript string, here [string];
    - a JavaScript value that may be [undefined] (an array read out of range,
      [_.last] of an empty array) is an [option], [None] being [undefined];
    - [throw] is the outcome [Threw]; a loop or recursion that has not
      finished within its fuel is the outcome [OutOfFuel];
    - the object state of [TeamConfigurations] ([teams], [players], [memo])
      is a record passed explicitly. *)

From Stdlib Require Import String Ascii Bool Arith ZArith Lia List Permutation.
From Stdlib Require Import DecimalString.
Import ListNotations.
Open Scope string_scope.
Open Scope Z_scope.
Open Scope list_scope.

Set Implicit Arguments.

(* ================================================================== *)
(** ** Outcomes of a JavaScript computation *)

Inductive error : Type :=
| PairingError            (* 'A pairing must include two unique players.' *)
| UniqueError             (* 'Player identifiers must be unique' *)
| SizeError (n : nat)     (* `8 players needed. You provided ${n}.` *)
| TypeError.              (* property access on undefined *)

Inductive outcome (A : Type) : Type :=
| Ret (a : A)
| Threw (e : error)
| OutOfFuel.

Arguments Ret {A} a.
Arguments Threw {A} e.
Arguments OutOfFuel {A}.

Definition bind {A B : Type} (m : outcome A) (k : A -> outcome B) : outcome B :=
  match m with
  | Ret a => k a
  | Threw e => Threw e
  | OutOfFuel => OutOfFuel
  end.

Notation "x <- m ;; k" := (bind m (fun x => k))
  (at level 61, m at next level, right associativity).

Definition omap {A B : Type} (f : A -> B) (m : outcome A) : outcome B :=
  match m with
  | Ret a => Ret (f a)
  | Threw e => Threw e
  | OutOfFuel => OutOfFuel
  end.

(* ================================================================== *)
(** ** The library functions used by [main.js]

    [_] is the lodash library (a release that still has the alias
    [_.unique] of [_.uniq]); it is not part of the repository, and its
    functions are written here from their documentation, on arrays of
    strings. *)

(** A JavaScript value that is a string or [undefined]. *)
Definition jsval : Type := option string.

(** [!v] for such a value: [undefined] and the empty string are falsy. *)
Definition falsy (v : jsval) : bool :=
  match v with
  | None => true
  | Some s => String.eqb s ""
  end.

(** [v1 === v2]. *)
Definition strict_eq (v1 v2 : jsval) : bool :=
  match v1, v2 with
  | None, None => true
  | Some a, Some b => String.eqb a b
  | _, _ => false
  end.

Definition mem (x : string) (l : list string) : bool :=
  existsb (String.eqb x) l.

(** [_.unique(array)]: the first occurrence of every value, in order. *)
Fixpoint unique_acc (seen l : list string) : list string :=
  match l with
  | [] => []
  | x :: l' =>
      if mem x seen then unique_acc seen l'
      else x :: unique_acc (x :: seen) l'
  end.

Definition unique (l : list string) : list string := unique_acc [] l.

(** [array.indexOf(x)]: the first position of [x], or [-1]. *)
Fixpoint indexOf (l : list string) (x : string) : Z :=
  match l with
  | [] => -1
  | y :: l' =>
      if String.eqb y x then 0
      else let r := indexOf l' x in if r <? 0 then -1 else r + 1
  end.

(** [_.last(array)]. *)
Definition last_of {A : Type} (l : list A) : option A :=
  match rev l with
  | [] => None
  | x :: _ => Some x
  end.

(** [_.without(array, v1, v2)]: drops every element equal to one of the
    values. *)
Definition without (l : list string) (vals : list jsval) : list string :=
  filter (fun c => negb (existsb (strict_eq (Some c)) vals)) l.

(** [_.xor(a, b)]: the values that are in exactly one of the two arrays. *)
Definition xor (a b : list string) : list string :=
  unique (filter (fun x => negb (mem x b)) a ++ filter (fun x => negb (mem x a)) b).

(** [array[i]] for an integer index: [undefined] out of range. *)
Definition get {A : Type} (l : list A) (i : Z) : option A :=
  if i <? 0 then None else nth_error l (Z.to_nat i).

(** [array[i] = v] on an array of numbers.  A write at [-1] (the only
    negative index [indexOf] produces) sets a property and leaves the
    elements alone; a write past the end extends the array, the holes being
    written here as [0], which [reduce] and a truth test cannot tell from a
    hole. *)
Fixpoint set_nat (l : list Z) (n : nat) (v : Z) : list Z :=
  match n, l with
  | O, [] => [v]
  | O, _ :: l' => v :: l'
  | S n', [] => 0 :: set_nat [] n' v
  | S n', x :: l' => x :: set_nat l' n' v
  end.

Definition set (l : list Z) (i : Z) (v : Z) : list Z :=
  if i <? 0 then l else set_nat l (Z.to_nat i) v.

(* ================================================================== *)
(** ** class PossibleTeam, class Pairing *)

(** [this.value = [p1, p2]]. *)
Record Pairing : Type := mkPairing { value : string * string }.

Record PossibleTeam : Type := mkPossibleTeam {
  possible : bool;
  configuration : list Pairing
}.

(** [new Pairing(p1, p2)]. *)
Definition newPairing (p1 p2 : jsval) : outcome Pairing :=
  match p1, p2 with
  | Some a, Some b =>
      if falsy p1 || falsy p2 || strict_eq p1 p2 then Threw PairingError
      else Ret (mkPairing (a, b))
  | _, _ => Threw PairingError
  end.

(** [Pairing.equals]. *)
Definition equals (p q : Pairing) : bool :=
  match xor [fst (value p); snd (value p)] [fst (value q); snd (value q)] with
  | [] => true
  | _ => false
  end.

(* ================================================================== *)
(** ** class TeamConfigurations *)

Definition Round : Type := list Pairing.

Record TeamConfigurations : Type := mkTC {
  teams : list Round;
  players : list string;
  memo : list (list Z)
}.

(** [constructor(players)]. *)
Definition constructor (ps : list string) : outcome TeamConfigurations :=
  if negb (Nat.eqb (length (unique ps)) (length ps)) then Threw UniqueError
  else if negb (Nat.eqb (length ps) 8) then Threw (SizeError (length ps))
  else Ret (mkTC [] ps (repeat (repeat 0 (length ps)) (length ps))).

(** [this.memo[i][j]] read for its truth value; [this.memo[i]] being
    [undefined] makes the second access throw. *)
Definition memo_used (m : list (list Z)) (i j : Z) : outcome bool :=
  match get m i with
  | None => Threw TypeError
  | Some row =>
      match get row j with
      | None => Ret false
      | Some v => Ret (negb (v =? 0))
      end
  end.

(** [this.memo[i][j] = 1]. *)
Definition memo_mark (m : list (list Z)) (i j : Z) : outcome (list (list Z)) :=
  match get m i with
  | None => Threw TypeError
  | Some row =>
      Ret (firstn (Z.to_nat i) m ++ set row j 1 :: skipn (S (Z.to_nat i)) m)
  end.

(** [_updateMemo(validTeam)], on the memo. *)
Fixpoint updateMemo_loop (ps : list string) (m : list (list Z))
    (validTeam : list Pairing) : outcome (list (list Z)) :=
  match validTeam with
  | [] => Ret m
  | p :: rest =>
      let p1Idx := indexOf ps (fst (value p)) in
      let p2Idx := indexOf ps (snd (value p)) in
      m1 <- memo_mark m p1Idx p2Idx ;;
      m2 <- memo_mark m1 p2Idx p1Idx ;;
      updateMemo_loop ps m2 rest
  end.

Definition _updateMemo (tc : TeamConfigurations) (validTeam : list Pairing)
    : outcome TeamConfigurations :=
  m <- updateMemo_loop (players tc) (memo tc) validTeam ;;
  Ret (mkTC (teams tc) (players tc) m).

(** [row.reduce((a,b) => a+b, 0)]. *)
Definition row_sum (row : list Z) : Z := fold_left Z.add row 0.

(** [_allTeamsGenerated()]. *)
Definition _allTeamsGenerated (tc : TeamConfigurations) : bool :=
  forallb (fun row => row_sum row =? Z.of_nat (length (players tc)) - 1) (memo tc).

(** A [for] loop whose body may [return] from the enclosing function:
    [Some r] is such a return, [None] falls through to the next index. *)
Fixpoint for_each {R : Type} (idxs : list nat) (body : nat -> outcome (option R))
    : outcome (option R) :=
  match idxs with
  | [] => Ret None
  | i :: rest =>
      r <- body i ;;
      match r with
      | Some x => Ret (Some x)
      | None => for_each rest body
      end
  end.

(** The test of lines 121-128: is the last pairing of [team] a repeat? *)
Definition last_is_repeat (tc : TeamConfigurations) (team : list Pairing)
    : outcome bool :=
  match last_of team with
  | None => Ret false
  | Some lastPairing =>
      memo_used (memo tc)
        (indexOf (players tc) (fst (value lastPairing)))
        (indexOf (players tc) (snd (value lastPairing)))
  end.

(** What one iteration of the inner loop does with candidate [(i, j)], given
    the recursive call [rec]. *)
Definition candidate (rec : list Pairing -> list string -> outcome PossibleTeam)
    (team : list Pairing) (choices : list string) (player1Idx player2Idx : nat)
    : outcome (option PossibleTeam) :=
  let c1 := nth_error choices player1Idx in
  let c2 := nth_error choices player2Idx in
  p <- newPairing c1 c2 ;;
  let newTeam := team ++ [p] in
  let newChoices := without choices [c1; c2] in
  possibleTeam <- rec newTeam newChoices ;;
  if possible possibleTeam then Ret (Some possibleTeam) else Ret None.

(** [_createTeam(team, choices)], the recursion depth bounded by [fuel]. *)
Fixpoint _createTeam_rec (fuel : nat) (tc : TeamConfigurations)
    (team : list Pairing) (choices : list string) : outcome PossibleTeam :=
  match fuel with
  | O => OutOfFuel
  | S fuel' =>
      repeated <- last_is_repeat tc team ;;
      if repeated then Ret (mkPossibleTeam false [])
      else if Nat.eqb (length choices) 0 then Ret (mkPossibleTeam true team)
      else
        r <- for_each (seq 0 (length choices - 1)) (fun player1Idx =>
               for_each (seq (player1Idx + 1) (length choices - (player1Idx + 1)))
                 (fun player2Idx =>
                    candidate (_createTeam_rec fuel' tc) team choices
                      player1Idx player2Idx)) ;;
        match r with
        | Some possibleTeam => Ret possibleTeam
        | None => Ret (mkPossibleTeam false [])
        end
  end.

(** Every recursive call removes at least one element of [choices]
    ([createTeam_fuel_irrelevant] below), so this fuel is always enough. *)
Definition _createTeam (tc : TeamConfigurations) (team : list Pairing)
    (choices : list string) : outcome PossibleTeam :=
  _createTeam_rec (S (length choices)) tc team choices.

(** The body of the [while] loop of [createTeams]. *)
Definition createTeams_body (tc : TeamConfigurations) : outcome TeamConfigurations :=
  possibleTeam <- _createTeam tc [] (players tc) ;;
  if possible possibleTeam then
    _updateMemo (mkTC (teams tc ++ [configuration possibleTeam]) (players tc) (memo tc))
                (configuration possibleTeam)
  else Ret tc.

(** The [while] loop of [createTeams], at most [fuel] iterations. *)
Fixpoint createTeams_loop (fuel : nat) (tc : TeamConfigurations)
    : outcome TeamConfigurations :=
  if _allTeamsGenerated tc then Ret tc
  else
    match fuel with
    | O => OutOfFuel
    | S fuel' => tc' <- createTeams_body tc ;; createTeams_loop fuel' tc'
    end.

(** [createTeams()]: the final object state and the returned [this.teams]. *)
Definition createTeams (fuel : nat) (tc : TeamConfigurations)
    : outcome (TeamConfigurations * list Round) :=
  tc' <- createTeams_loop fuel tc ;; Ret (tc', teams tc').

(** [new TeamConfigurations(ps).createTeams()], as at the end of [main.js]:
    the object as [createTeams] leaves it, and the schedule it returns. *)
Definition run (fuel : nat) (ps : list string)
    : outcome (TeamConfigurations * list Round) :=
  tc <- constructor ps ;; createTeams fuel tc.

(** The roster of [tc1] (line 151). *)
Definition tc1_players : list string := ["1"; "2"; "3"; "4"; "5"; "6"; "7"; "8"].

(* ================================================================== *)
(** ** The vocabulary of the properties

    Predicates on schedules and rounds, the example rosters, and the
    relations on invocations and loop states that the theorems below are
    stated with. *)

(** Both members of the pairing are players of [ps]. *)
Definition pairing_in (ps : list string) (p : Pairing) : Prop :=
  In (fst (value p)) ps /\ In (snd (value p)) ps.

(** The renaming [f] of the players, on a pairing, a search result and the
    object. *)
Definition rename_pairing (f : string -> string) (p : Pairing) : Pairing :=
  mkPairing (f (fst (value p)), f (snd (value p))).

Definition rename_possible (f : string -> string) (pt : PossibleTeam) : PossibleTeam :=
  mkPossibleTeam (possible pt) (map (rename_pairing f) (configuration pt)).

Definition rename_tc (f : string -> string) (tc : TeamConfigurations)
    : TeamConfigurations :=
  mkTC (map (map (rename_pairing f)) (teams tc)) (map f (players tc)) (memo tc).

(** The object a successful [constructor(ps)] leaves. *)
Definition init (ps : list string) : TeamConfigurations :=
  mkTC [] ps (repeat (repeat 0 (length ps)) (length ps)).

(** The pairing with [value = [a, b]]. *)
Definition P (a b : string) : Pairing := mkPairing (a, b).

(** The schedule printed for [tc1]. *)
Definition tc1_schedule : list Round :=
  [ [P "1" "2"; P "3" "4"; P "5" "6"; P "7" "8"];
    [P "1" "3"; P "2" "4"; P "5" "7"; P "6" "8"];
    [P "1" "4"; P "2" "3"; P "5" "8"; P "6" "7"];
    [P "1" "5"; P "2" "6"; P "3" "7"; P "4" "8"];
    [P "1" "6"; P "2" "5"; P "3" "8"; P "4" "7"];
    [P "1" "7"; P "2" "8"; P "3" "5"; P "4" "6"];
    [P "1" "8"; P "2" "7"; P "3" "6"; P "4" "5"] ].

(** The constraint matrix once every pair has been used: [1] off the
    diagonal. *)
Definition full_memo (n : nat) : list (list Z) :=
  map (fun i => map (fun j => if Nat.eqb i j then 0 else 1) (seq 0 n)) (seq 0 n).

Definition tc1_final : TeamConfigurations :=
  mkTC tc1_schedule tc1_players (full_memo 8).

(** The object of [tc1] once its first round has been accepted. *)
Definition after_round_1 : TeamConfigurations :=
  mkTC [[P "1" "2"; P "3" "4"; P "5" "6"; P "7" "8"]] tc1_players
       [ [0; 1; 0; 0; 0; 0; 0; 0]; [1; 0; 0; 0; 0; 0; 0; 0];
         [0; 0; 0; 1; 0; 0; 0; 0]; [0; 0; 1; 0; 0; 0; 0; 0];
         [0; 0; 0; 0; 0; 1; 0; 0]; [0; 0; 0; 0; 1; 0; 0; 0];
         [0; 0; 0; 0; 0; 0; 0; 1]; [0; 0; 0; 0; 0; 0; 1; 0] ].

(** The roster of [tc1] with the empty string at the positions where [ps]
    has it. *)
Definition shape (ps : list string) : list string :=
  map (fun pc => if String.eqb (fst pc) "" then "" else snd pc) (combine ps tc1_players).

(** The renaming that sends the roster [c] to the roster [ps], position by
    position. *)
Fixpoint renaming (c ps : list string) (x : string) : string :=
  match c, ps with
  | y :: c', p :: ps' => if String.eqb y x then p else renaming c' ps' x
  | _, _ => ""
  end.

Definition blank_rosters : list (list string) :=
  [ [""; "2"; "3"; "4"; "5"; "6"; "7"; "8"];
    ["1"; ""; "3"; "4"; "5"; "6"; "7"; "8"];
    ["1"; "2"; ""; "4"; "5"; "6"; "7"; "8"];
    ["1"; "2"; "3"; ""; "5"; "6"; "7"; "8"];
    ["1"; "2"; "3"; "4"; ""; "6"; "7"; "8"];
    ["1"; "2"; "3"; "4"; "5"; ""; "7"; "8"];
    ["1"; "2"; "3"; "4"; "5"; "6"; ""; "8"];
    ["1"; "2"; "3"; "4"; "5"; "6"; "7"; ""] ].

(** The players of a pairing, and of a round. *)
Definition players_of (p : Pairing) : list string := [fst (value p); snd (value p)].

Definition members (r : Round) : list string := flat_map players_of r.

(** The round has a pairing that [equals] the pairing of [a] and [b]. *)
Definition occurs_in (a b : string) (r : Round) : bool :=
  existsb (equals (P a b)) r.

(** The rounds of a schedule in which [a] and [b] are paired. *)
Definition rounds_with (a b : string) (s : list Round) : list Round :=
  filter (occurs_in a b) s.

(** Two pairings with no player in common. *)
Definition share_no_player (p q : Pairing) : Prop :=
  forall x, In x (players_of p) -> ~ In x (players_of q).

(** The number of used (non-zero) entries of a row of the matrix. *)
Definition used_entries (row : list Z) : nat :=
  length (filter (fun v => negb (v =? 0)) row).

(** [equals] written out on the four identifiers. *)
Definition same_players (p q : Pairing) : bool :=
  let a := fst (value p) in let b := snd (value p) in
  let c := fst (value q) in let d := snd (value q) in
  (String.eqb a c || String.eqb a d) && (String.eqb b c || String.eqb b d) &&
  (String.eqb c a || String.eqb c b) && (String.eqb d a || String.eqb d b).

(** The 2-combinations of an array, first index below second. *)
Fixpoint combinations2 (l : list string) : list (string * string) :=
  match l with
  | [] => []
  | x :: l' => map (pair x) l' ++ combinations2 l'
  end.

(** How many pairings of the whole schedule pair [a] with [b]. *)
Definition times_paired (a b : string) (s : list Round) : nat :=
  length (filter (equals (P a b)) (concat s)).

(** The two errors the constructor throws. *)
Definition InvalidRosterError (e : error) : Prop :=
  e = UniqueError \/ exists n, e = SizeError n.

(** Candidate [(i', j')] comes before candidate [(i, j)] in the two nested
    loops of [_createTeam]. *)
Definition tried_before (i' j' i j : nat) : Prop :=
  (i' < i)%nat \/ (i' = i /\ (j' < j)%nat).

(** The objects the loop of [createTeams] passes through at its head,
    starting from [tc0]. *)
Inductive loop_state (tc0 : TeamConfigurations) : TeamConfigurations -> Prop :=
| loop_start : loop_state tc0 tc0
| loop_next (tc tc' : TeamConfigurations) :
    loop_state tc0 tc ->
    _allTeamsGenerated tc = false ->
    createTeams_body tc = Ret tc' ->
    loop_state tc0 tc'.

(** [createTeams] on the roster [ps] ends by progress: the object is
    constructed, at every head of the loop where the completion predicate is
    false the search returns a round, and the loop reaches completion within
    a fixed number of iterations. *)
Definition terminates_by_progress (ps : list string) : Prop :=
  exists tc0, constructor ps = Ret tc0 /\
    (forall tc, loop_state tc0 tc -> _allTeamsGenerated tc = false ->
       exists cfg, _createTeam tc [] (players tc) = Ret (mkPossibleTeam true cfg)) /\
    (exists n, forall fuel, (n <= fuel)%nat ->
       exists tc', createTeams_loop fuel tc0 = Ret tc' /\ _allTeamsGenerated tc' = true).

(** The loop body applied [k] times. *)
Fixpoint iterate_body (k : nat) (tc : TeamConfigurations) : outcome TeamConfigurations :=
  match k with
  | O => Ret tc
  | S k' => tc' <- iterate_body k' tc ;; createTeams_body tc'
  end.

(** On the roster of [tc1] the search succeeds at each of the seven heads of
    the loop where the predicate is false, and the eighth is complete. *)
Definition search_succeeds_at (k : nat) : bool :=
  match iterate_body k (init tc1_players) with
  | Ret tc =>
      negb (_allTeamsGenerated tc) &&
      match _createTeam tc [] (players tc) with
      | Ret pt => possible pt
      | _ => false
      end
  | _ => false
  end.

(** The search from the empty partial round reports failure while the
    completion predicate is false. *)
Definition stuck (tc : TeamConfigurations) : Prop :=
  _allTeamsGenerated tc = false /\
  exists pt, _createTeam tc [] (players tc) = Ret pt /\ possible pt = false.

(** [createTeams] ends with an error, for every fuel large enough. *)
Definition surfaces_error (tc : TeamConfigurations) : Prop :=
  exists e n, forall fuel, (n <= fuel)%nat -> createTeams fuel tc = Threw e.

(** Five rounds, each a partition of the roster of [tc1], no pair twice;
    the pairs they leave unused are the triangle 1-2-3 and the pentagon
    4-5-6-7-8, which no round can be drawn from. *)
Definition stuck_rounds : list Round :=
  [ [P "4" "6"; P "1" "5"; P "2" "7"; P "3" "8"];
    [P "6" "8"; P "1" "4"; P "2" "5"; P "3" "7"];
    [P "5" "8"; P "1" "7"; P "2" "4"; P "3" "6"];
    [P "5" "7"; P "1" "6"; P "2" "8"; P "3" "4"];
    [P "4" "7"; P "1" "8"; P "2" "6"; P "3" "5"] ].

Definition stuck_memo : list (list Z) :=
  [ [0; 0; 0; 1; 1; 1; 1; 1];
    [0; 0; 0; 1; 1; 1; 1; 1];
    [0; 0; 0; 1; 1; 1; 1; 1];
    [1; 1; 1; 0; 0; 1; 1; 0];
    [1; 1; 1; 0; 0; 0; 1; 1];
    [1; 1; 1; 1; 0; 0; 0; 1];
    [1; 1; 1; 1; 1; 0; 0; 0];
    [1; 1; 1; 0; 1; 1; 0; 0] ].

Definition stuck_tc : TeamConfigurations := mkTC stuck_rounds tc1_players stuck_memo.

(** [push] and [_updateMemo], as [createTeams] does for an accepted round. *)
Definition accept_round (tc : TeamConfigurations) (r : Round)
    : outcome TeamConfigurations :=
  _updateMemo (mkTC (teams tc ++ [r]) (players tc) (memo tc)) r.

Fixpoint accept_rounds (tc : TeamConfigurations) (rs : list Round)
    : outcome TeamConfigurations :=
  match rs with
  | [] => Ret tc
  | r :: rs' => tc' <- accept_round tc r ;; accept_rounds tc' rs'
  end.

(** The test of lines 121-128 lets the pairing through: it has not been
    used in an earlier round. *)
Definition unused (tc : TeamConfigurations) (p : Pairing) : Prop :=
  memo_used (memo tc)
    (indexOf (players tc) (fst (value p)))
    (indexOf (players tc) (snd (value p))) = Ret false.

(** The invocations [_createTeam(team, choices)] that a top-level call can
    make: line 139 is reached only once the test on the last pairing of
    [team] has let it through (line 125), [choices] is not empty (line 130),
    the loops are at indices [i < j] and the [Pairing] constructor has
    returned.  That earlier candidates have failed is not recorded, so the
    relation holds of every invocation made, and possibly of more. *)
Inductive invoked (tc : TeamConfigurations) : list Pairing -> list string -> Prop :=
| invoked_top : invoked tc [] (players tc)
| invoked_rec (team : list Pairing) (choices : list string) (i j : nat) (p : Pairing) :
    invoked tc team choices ->
    last_is_repeat tc team = Ret false ->
    choices <> [] ->
    (i < j < length choices)%nat ->
    newPairing (nth_error choices i) (nth_error choices j) = Ret p ->
    invoked tc (team ++ [p])
      (without choices [nth_error choices i; nth_error choices j]).

(* ================================================================== *)
(** ** Further vocabulary: the matrix, the shape of a round, consistency of
    the object, and [printMatchUps] *)

(** The matrix has [n] rows of [n] entries. *)
Definition square (n : nat) (m : list (list Z)) : Prop :=
  length m = n /\ Forall (fun row => length row = n) m.

(** The matrix reads the same for a pair of roster players in either
    order. *)
Definition symmetric_on (ps : list string) (m : list (list Z)) : Prop :=
  forall a b, In a ps -> In b ps ->
    memo_used m (indexOf ps a) (indexOf ps b) = memo_used m (indexOf ps b) (indexOf ps a).

(** A pairing as the [Pairing] constructor lets it be: two non-empty,
    different players. *)
Definition proper (p : Pairing) : Prop :=
  fst (value p) <> "" /\ snd (value p) <> "" /\ fst (value p) <> snd (value p).

(** [a] stands before [b] in the array. *)
Definition before (l : list string) (a b : string) : Prop :=
  exists l1 l2 l3, l = l1 ++ a :: l2 ++ b :: l3.

(** The pairing holds its players in the order of the array. *)
Definition in_order (l : list string) (p : Pairing) : Prop :=
  before l (fst (value p)) (snd (value p)).

(** Every entry of the matrix is [0] or [1]. *)
Definition binary (m : list (list Z)) : Prop :=
  Forall (Forall (fun v => v = 0 \/ v = 1)) m.

(** No player is marked as paired with themselves. *)
Definition zero_diagonal (m : list (list Z)) : Prop :=
  forall i, (i < length m)%nat -> memo_used m (Z.of_nat i) (Z.of_nat i) = Ret false.

(** The matrix is in step with the schedule: two roster players are marked
    exactly when a round of [teams] pairs them. *)
Definition in_step (tc : TeamConfigurations) : Prop :=
  forall a b, In a (players tc) -> In b (players tc) ->
    memo_used (memo tc) (indexOf (players tc) a) (indexOf (players tc) b)
    = Ret (existsb (occurs_in a b) (teams tc)).

(** The round pairs off the roster: its players are those of the roster,
    each once, in pairings of two different non-empty players. *)
Definition valid_round (ps : list string) (r : Round) : Prop :=
  Permutation (members r) ps /\ Forall proper r.

(** The state [createTeams] works on and keeps: a roster without repeats, a
    square matrix of zeros and ones in step with the schedule, whose rounds
    each pair off the roster and never pair the same two players twice. *)
Definition consistent (tc : TeamConfigurations) : Prop :=
  NoDup (players tc) /\
  square (length (players tc)) (memo tc) /\
  binary (memo tc) /\
  in_step tc /\
  Forall (valid_round (players tc)) (teams tc) /\
  forall a b, In a (players tc) -> In b (players tc) ->
    (length (rounds_with a b (teams tc)) <= 1)%nat.

(** [`${n}`] for a non-negative integer. *)
Definition decimal (n : nat) : string := NilEmpty.string_of_uint (Nat.to_uint n).

(** [pairing.value.join(' and ')]. *)
Definition join_and (p : Pairing) : string :=
  (fst (value p) ++ " and " ++ snd (value p))%string.

(** The line break of the template literal. *)
Definition newline : string := String (ascii_of_nat 10) "".

(** The template literal of lines 82-85 for the round [this.teams[m]];
    [this.teams[m][k]] being [undefined] makes [.value] throw. *)
Definition round_message (r : Round) : outcome string :=
  match nth_error r 0, nth_error r 1, nth_error r 2, nth_error r 3 with
  | Some p0, Some p1, Some p2, Some p3 =>
      Ret (newline ++ "        Table 1: " ++ join_and p0 ++ " vs " ++ join_and p1 ++ "."
           ++ newline ++ "        Table 2: " ++ join_and p2 ++ " vs " ++ join_and p3 ++ "."
           ++ newline ++ "      ")%string
  | _, _, _, _ => Threw TypeError
  end.

(** The loop of [printMatchUps] from index [m] on, over the rounds from that
    index: what [console.log] has been given, in order, and how the loop
    ended. *)
Fixpoint printMatchUps_from (m : nat) (rounds : list Round)
    : list string * outcome unit :=
  match rounds with
  | [] => ([], Ret tt)
  | r :: rest =>
      let header := ("Round " ++ decimal (m + 1))%string in
      match round_message r with
      | Ret msg =>
          let (log, res) := printMatchUps_from (S m) rest in
          (header :: msg :: log, res)
      | Threw e => ([header], Threw e)
      | OutOfFuel => ([header], OutOfFuel)
      end
  end.

(** [printMatchUps()]. *)
Definition printMatchUps (tc : TeamConfigurations) : list string * outcome unit :=
  printMatchUps_from 0 (teams tc).

(* ================================================================== *)
(** ** Facts about the outcome monad and the loops *)

Lemma bind_Ret_inv {A B : Type} (m : outcome A) (k : A -> outcome B) (b : B) :
  bind m k = Ret b -> exists a, m = Ret a /\ k a = Ret b.
Proof. destruct m; simpl; intros H; try discriminate. eauto. Qed.

Lemma omap_Ret_inv {A B : Type} (g : A -> B) (m : outcome A) (b : B) :
  omap g m = Ret b -> exists a, m = Ret a /\ b = g a.
Proof. destruct m; simpl; intros H; inversion H; eauto. Qed.

Lemma for_each_ext {R : Type} (l : list nat) (b1 b2 : nat -> outcome (option R)) :
  (forall i, In i l -> b1 i = b2 i) -> for_each l b1 = for_each l b2.
Proof.
  induction l as [|i l IH]; intros H; simpl; [reflexivity|].
  rewrite (H i (or_introl eq_refl)).
  destruct (b2 i) as [[x|]| |]; simpl; auto.
  apply IH. intros; apply H; right; assumption.
Qed.

Lemma for_each_omap {R S : Type} (g : R -> S) (l : list nat)
    (b : nat -> outcome (option R)) (b' : nat -> outcome (option S)) :
  (forall i, In i l -> b' i = omap (option_map g) (b i)) ->
  for_each l b' = omap (option_map g) (for_each l b).
Proof.
  induction l as [|i l IH]; intros H; simpl; [reflexivity|].
  rewrite (H i (or_introl eq_refl)).
  destruct (b i) as [[x|]| |]; simpl; auto.
  apply IH. intros; apply H; right; assumption.
Qed.

(** A loop that returns [x] returned it at some index, every earlier index
    having fallen through. *)
Lemma for_each_Some {R : Type} (l : list nat) (b : nat -> outcome (option R)) (x : R) :
  for_each l b = Ret (Some x) ->
  exists l1 i l2, l = l1 ++ i :: l2 /\ b i = Ret (Some x) /\
                  forall i', In i' l1 -> b i' = Ret None.
Proof.
  induction l as [|i l IH]; simpl; intros H; [discriminate|].
  destruct (b i) as [[y|]| |] eqn:E; simpl in H; try discriminate.
  - inversion H; subst. exists [], i, l. simpl. intuition.
  - destruct (IH H) as (l1 & k & l2 & -> & Hk & Hl1).
    exists (i :: l1), k, l2. simpl. split; [reflexivity|]. split; [assumption|].
    intros i' [<-|Hi]; auto.
Qed.

Lemma for_each_None {R : Type} (l : list nat) (b : nat -> outcome (option R)) :
  for_each l b = Ret None -> forall i, In i l -> b i = Ret None.
Proof.
  induction l as [|i l IH]; simpl; intros H k Hk; [contradiction|].
  destruct (b i) as [[y|]| |] eqn:E; simpl in H; try discriminate.
  destruct Hk as [<-|Hk]; auto.
Qed.

(* ================================================================== *)
(** ** Facts about the library functions *)

Lemma mem_In (x : string) (l : list string) : mem x l = true <-> In x l.
Proof.
  unfold mem. rewrite existsb_exists. split.
  - intros (y & Hy & E). apply String.eqb_eq in E. subst. assumption.
  - intros H. exists x. split; [assumption | apply String.eqb_refl].
Qed.

Lemma mem_false (x : string) (l : list string) : mem x l = false <-> ~ In x l.
Proof.
  rewrite <- mem_In. destruct (mem x l); split; intros; congruence.
Qed.

Lemma unique_acc_length (l seen : list string) :
  (length (unique_acc seen l) <= length l)%nat.
Proof.
  revert seen. induction l as [|x l IH]; intros seen; simpl; [lia|].
  destruct (mem x seen); simpl.
  - specialize (IH seen). lia.
  - specialize (IH (x :: seen)). lia.
Qed.

Lemma unique_acc_full (l seen : list string) :
  length (unique_acc seen l) = length l <->
  NoDup l /\ (forall x, In x l -> ~ In x seen).
Proof.
  revert seen. induction l as [|x l IH]; intros seen; simpl.
  - split; [intros _; split; [constructor | intros ? []] | reflexivity].
  - destruct (mem x seen) eqn:E.
    + split.
      * intros H. pose proof (unique_acc_length l seen). lia.
      * intros [_ H]. apply mem_In in E. exfalso. apply (H x); auto.
    + apply mem_false in E. simpl. split.
      * intros H. assert (H' : length (unique_acc (x :: seen) l) = length l) by lia.
        apply IH in H'. destruct H' as [Hnd Hs]. split.
        -- constructor; [|assumption]. intros Hx. apply (Hs x Hx). left; reflexivity.
        -- intros y [<-|Hy]; [assumption|]. intros Hy'. apply (Hs y Hy). right; assumption.
      * intros [Hnd Hs]. inversion Hnd; subst. f_equal. apply IH. split; [assumption|].
        intros y Hy [<-|Hy']; [contradiction|]. apply (Hs y); auto.
Qed.

(** [_.unique] keeps the length exactly when the array has no duplicate. *)
Lemma unique_length_NoDup (l : list string) :
  length (unique l) = length l <-> NoDup l.
Proof.
  unfold unique. rewrite unique_acc_full. split; [intros [H _]; exact H|].
  intros H; split; [exact H | intros ? _ []].
Qed.

Lemma indexOf_range (l : list string) (x : string) :
  indexOf l x = -1 \/ 0 <= indexOf l x < Z.of_nat (length l).
Proof.
  induction l as [|y l IH]; simpl; [left; reflexivity|].
  destruct (String.eqb y x); [right; lia|].
  destruct (Z.ltb_spec (indexOf l x) 0); [left; reflexivity | right; lia].
Qed.

Lemma indexOf_In (l : list string) (x : string) :
  In x l -> 0 <= indexOf l x < Z.of_nat (length l).
Proof.
  induction l as [|y l IH]; simpl; [intros []|].
  intros H. destruct (String.eqb_spec y x); [lia|].
  destruct H as [H|H]; [contradiction|]. specialize (IH H).
  destruct (Z.ltb_spec (indexOf l x) 0); lia.
Qed.

Lemma last_of_app {A : Type} (l : list A) (x : A) : last_of (l ++ [x]) = Some x.
Proof. unfold last_of. rewrite rev_app_distr. reflexivity. Qed.

Lemma last_of_map {A B : Type} (g : A -> B) (l : list A) :
  last_of (map g l) = option_map g (last_of l).
Proof. unfold last_of. rewrite <- map_rev. destruct (rev l); reflexivity. Qed.

Lemma last_of_In {A : Type} (l : list A) (x : A) : last_of l = Some x -> In x l.
Proof.
  unfold last_of. destruct (rev l) eqn:E; intros H; inversion H; subst.
  apply in_rev. rewrite E. left; reflexivity.
Qed.

Lemma without_incl (l : list string) (vals : list jsval) : incl (without l vals) l.
Proof. intros x H. apply filter_In in H. tauto. Qed.

Lemma filter_length_lt {A : Type} (p : A -> bool) (l : list A) (a : A) :
  In a l -> p a = false -> (length (filter p l) < length l)%nat.
Proof.
  induction l as [|x l IH]; simpl; [intros []|].
  intros [->|H] Hp.
  - rewrite Hp. pose proof (filter_length_le p l). lia.
  - specialize (IH H Hp). destruct (p x); simpl; lia.
Qed.

(** [_.without] with a value of the array among the values shortens it. *)
Lemma without_length (l : list string) (a : string) (vals : list jsval) :
  In a l -> (length (without l (Some a :: vals)) < length l)%nat.
Proof.
  intros H. unfold without. apply filter_length_lt with (a := a); [assumption|].
  simpl. rewrite String.eqb_refl. reflexivity.
Qed.

Lemma newPairing_Ret (c1 c2 : jsval) (p : Pairing) :
  newPairing c1 c2 = Ret p ->
  exists a b, c1 = Some a /\ c2 = Some b /\ p = mkPairing (a, b) /\
              a <> "" /\ b <> "" /\ a <> b.
Proof.
  unfold newPairing. destruct c1 as [a|], c2 as [b|]; try discriminate.
  simpl. destruct (String.eqb_spec a ""); [discriminate|].
  destruct (String.eqb_spec b ""); [discriminate|].
  destruct (String.eqb_spec a b); [discriminate|].
  simpl. intros H; inversion H; subst. exists a, b. auto 7.
Qed.

Lemma newPairing_total (c1 c2 : jsval) : newPairing c1 c2 <> OutOfFuel.
Proof.
  unfold newPairing. destruct c1, c2; try discriminate.
  destruct (_ || _); discriminate.
Qed.

(* ================================================================== *)
(** ** The fuel of [_createTeam] *)

Lemma createTeam_fuel_irrelevant (n m : nat) (tc : TeamConfigurations)
    (team : list Pairing) (choices : list string) :
  (length choices < n)%nat -> (length choices < m)%nat ->
  _createTeam_rec n tc team choices = _createTeam_rec m tc team choices.
Proof.
  revert m team choices. induction n as [|n IH]; intros m team choices Hn Hm; [lia|].
  destruct m as [|m]; [lia|]. simpl.
  destruct (last_is_repeat tc team) as [[|]| |]; simpl; try reflexivity.
  destruct (Nat.eqb (length choices) 0); [reflexivity|].
  f_equal. apply for_each_ext. intros i _. apply for_each_ext. intros j _.
  unfold candidate.
  destruct (newPairing (nth_error choices i) (nth_error choices j)) as [p| |] eqn:E;
    simpl; try reflexivity.
  apply newPairing_Ret in E. destruct E as (a & b & Ha & Hb & _).
  rewrite Ha, Hb. apply nth_error_In in Ha.
  pose proof (without_length choices a [Some b] Ha).
  rewrite (IH m) by lia. reflexivity.
Qed.

Lemma for_each_OutOfFuel {R : Type} (l : list nat) (b : nat -> outcome (option R)) :
  for_each l b = OutOfFuel -> exists i, In i l /\ b i = OutOfFuel.
Proof.
  induction l as [|i l IH]; simpl; intros H; [discriminate|].
  destruct (b i) as [[y|]| |] eqn:E; simpl in H; try discriminate.
  - destruct (IH H) as (k & Hk & Ek). exists k. auto.
  - exists i. auto.
Qed.

Lemma last_is_repeat_total (tc : TeamConfigurations) (team : list Pairing) :
  last_is_repeat tc team <> OutOfFuel.
Proof.
  unfold last_is_repeat, memo_used. destruct (last_of team); [|discriminate].
  destruct (get (memo tc) _); [|discriminate]. destruct (get _ _); discriminate.
Qed.

(** With more fuel than [choices] has elements the search finishes. *)
Lemma createTeam_rec_total (n : nat) (tc : TeamConfigurations)
    (team : list Pairing) (choices : list string) :
  (length choices < n)%nat -> _createTeam_rec n tc team choices <> OutOfFuel.
Proof.
  revert team choices. induction n as [|n IH]; intros team choices Hn; [lia|].
  simpl. pose proof (last_is_repeat_total tc team) as HL.
  destruct (last_is_repeat tc team) as [[|]| |]; simpl; try discriminate; try congruence.
  destruct (Nat.eqb (length choices) 0); [discriminate|].
  match goal with |- context [for_each ?l ?b] => destruct (for_each l b) as [[x|]| |] eqn:F end;
    simpl; try discriminate.
  exfalso. apply for_each_OutOfFuel in F. destruct F as (i & _ & F).
  apply for_each_OutOfFuel in F. destruct F as (j & _ & F).
  unfold candidate in F.
  pose proof (newPairing_total (nth_error choices i) (nth_error choices j)) as HP.
  destruct (newPairing (nth_error choices i) (nth_error choices j)) as [p| |] eqn:P;
    simpl in F; [|discriminate|congruence].
  apply newPairing_Ret in P. destruct P as (a & b & Ha & Hb & _).
  rewrite Ha, Hb in F. apply nth_error_In in Ha.
  pose proof (without_length choices a [Some b] Ha).
  destruct (_createTeam_rec n tc _ _) as [pt| |] eqn:R; simpl in F.
  - destruct (possible pt); discriminate.
  - discriminate.
  - eapply IH; [|exact R]. lia.
Qed.

(** [_createTeam] satisfies the recursive equation of the source: the bound
    on the depth has disappeared. *)
Lemma createTeam_equation (tc : TeamConfigurations) (team : list Pairing)
    (choices : list string) :
  _createTeam tc team choices =
  (repeated <- last_is_repeat tc team ;;
   if repeated then Ret (mkPossibleTeam false [])
   else if Nat.eqb (length choices) 0 then Ret (mkPossibleTeam true team)
   else
     r <- for_each (seq 0 (length choices - 1)) (fun player1Idx =>
            for_each (seq (player1Idx + 1) (length choices - (player1Idx + 1)))
              (fun player2Idx =>
                 candidate (_createTeam tc) team choices player1Idx player2Idx)) ;;
     match r with
     | Some possibleTeam => Ret possibleTeam
     | None => Ret (mkPossibleTeam false [])
     end).
Proof.
  unfold _createTeam at 1. simpl.
  destruct (last_is_repeat tc team) as [[|]| |]; simpl; try reflexivity.
  destruct (Nat.eqb (length choices) 0); [reflexivity|].
  f_equal. apply for_each_ext. intros i _. apply for_each_ext. intros j _.
  unfold candidate.
  destruct (newPairing (nth_error choices i) (nth_error choices j)) as [p| |] eqn:E;
    simpl; try reflexivity.
  apply newPairing_Ret in E. destruct E as (a & b & Ha & Hb & _).
  rewrite Ha, Hb. apply nth_error_In in Ha.
  pose proof (without_length choices a [Some b] Ha).
  unfold _createTeam.
  rewrite (createTeam_fuel_irrelevant (n := length choices)
             (m := S (length (without choices [Some a; Some b])))) by lia.
  reflexivity.
Qed.

Lemma createTeam_total (tc : TeamConfigurations) (team : list Pairing)
    (choices : list string) : _createTeam tc team choices <> OutOfFuel.
Proof. apply createTeam_rec_total. lia. Qed.

(* ================================================================== *)
(** ** The fuel of the [while] loop *)

Lemma createTeams_loop_S (n : nat) (tc : TeamConfigurations)
    (r : outcome TeamConfigurations) :
  createTeams_loop n tc = r -> r <> OutOfFuel -> createTeams_loop (S n) tc = r.
Proof.
  revert tc. induction n as [|n IH]; intros tc H Hr.
  - simpl in H |- *. destruct (_allTeamsGenerated tc); [assumption | congruence].
  - simpl in H. change (createTeams_loop (S (S n)) tc) with
      (if _allTeamsGenerated tc then Ret tc
       else tc' <- createTeams_body tc ;; createTeams_loop (S n) tc').
    destruct (_allTeamsGenerated tc); [assumption|].
    destruct (createTeams_body tc) as [tc'| |]; simpl in H |- *; try assumption.
    apply IH; assumption.
Qed.

(** Once the loop has finished within [n] iterations, more fuel changes
    nothing. *)
Lemma createTeams_loop_mono (n m : nat) (tc : TeamConfigurations)
    (r : outcome TeamConfigurations) :
  createTeams_loop n tc = r -> r <> OutOfFuel -> (n <= m)%nat ->
  createTeams_loop m tc = r.
Proof.
  intros H Hr Hnm. induction Hnm as [|m Hnm IH]; [assumption|].
  apply createTeams_loop_S; assumption.
Qed.

Lemma createTeams_loop_agree (n m : nat) (tc : TeamConfigurations) :
  createTeams_loop n tc <> OutOfFuel -> createTeams_loop m tc <> OutOfFuel ->
  createTeams_loop n tc = createTeams_loop m tc.
Proof.
  intros Hn Hm. destruct (Nat.le_ge_cases n m) as [H|H].
  - symmetry. eapply createTeams_loop_mono; eauto.
  - eapply createTeams_loop_mono; eauto.
Qed.

(** An unsuccessful search leaves the object as it was, and the loop has
    nothing else to try. *)
Lemma createTeams_loop_stuck (tc : TeamConfigurations) :
  _allTeamsGenerated tc = false ->
  createTeams_body tc = Ret tc ->
  forall fuel, createTeams_loop fuel tc = OutOfFuel.
Proof.
  intros Hc Hb fuel. induction fuel as [|n IH]; simpl; rewrite Hc; [reflexivity|].
  rewrite Hb. simpl. exact IH.
Qed.

(* ================================================================== *)
(** ** Where the players of a result come from *)

Lemma createTeam_rec_members (ps : list string) (fuel : nat)
    (tc : TeamConfigurations) (team : list Pairing) (choices : list string)
    (pt : PossibleTeam) :
  _createTeam_rec fuel tc team choices = Ret pt ->
  Forall (pairing_in ps) team -> incl choices ps ->
  Forall (pairing_in ps) (configuration pt).
Proof.
  revert team choices pt. induction fuel as [|n IH]; intros team choices pt H Ht Hc;
    [discriminate|].
  simpl in H. apply bind_Ret_inv in H. destruct H as ([|] & _ & H).
  { inversion H; subst. constructor. }
  destruct (Nat.eqb (length choices) 0).
  { inversion H; subst. assumption. }
  apply bind_Ret_inv in H. destruct H as ([x|] & F & H);
    inversion H; subst; [|constructor].
  apply for_each_Some in F. destruct F as (_ & i & _ & _ & F & _).
  apply for_each_Some in F. destruct F as (_ & j & _ & _ & F & _).
  unfold candidate in F. apply bind_Ret_inv in F. destruct F as (p & P & F).
  apply bind_Ret_inv in F. destruct F as (pt' & R & F).
  destruct (possible pt'); inversion F; subst.
  apply newPairing_Ret in P. destruct P as (a & b & Ha & Hb & -> & _).
  apply (IH _ _ _ R).
  - apply Forall_app. split; [assumption|]. constructor; [|constructor].
    split; simpl; apply Hc; eapply nth_error_In; eassumption.
  - intros y Hy. apply Hc. eapply without_incl. eassumption.
Qed.

Lemma createTeams_body_players (tc tc' : TeamConfigurations) :
  createTeams_body tc = Ret tc' -> players tc' = players tc.
Proof.
  unfold createTeams_body. intros H. apply bind_Ret_inv in H.
  destruct H as (pt & _ & H). destruct (possible pt).
  - unfold _updateMemo in H. apply bind_Ret_inv in H. destruct H as (m & _ & H).
    inversion H; subst. reflexivity.
  - inversion H; subst. reflexivity.
Qed.

(* ================================================================== *)
(** ** Renaming the players

    The search reads the identifiers only through [===], [!] and [indexOf]:
    a renaming [f] that is injective on the roster and keeps the empty
    string where it is commutes with every step. *)

Section Relabel.
Variable f : string -> string.
Variable ps : list string.
Hypothesis f_inj : forall x y, In x ps -> In y ps -> f x = f y -> x = y.
Hypothesis f_falsy : forall x, In x ps -> String.eqb (f x) "" = String.eqb x "".

Lemma eqb_rename (x y : string) :
  In x ps -> In y ps -> String.eqb (f x) (f y) = String.eqb x y.
Proof.
  intros Hx Hy. destruct (String.eqb_spec x y) as [->|N].
  - apply String.eqb_refl.
  - apply String.eqb_neq. intros E. apply N. apply f_inj; assumption.
Qed.

Lemma indexOf_rename (l : list string) (x : string) :
  incl l ps -> In x ps -> indexOf (map f l) (f x) = indexOf l x.
Proof.
  intros Hl Hx. induction l as [|y l IH]; simpl; [reflexivity|].
  rewrite eqb_rename by (auto; apply Hl; left; reflexivity).
  rewrite IH; [reflexivity|]. intros z Hz. apply Hl. right; assumption.
Qed.

Lemma without_rename (l : list string) (a b : string) :
  incl l ps -> In a ps -> In b ps ->
  without (map f l) [Some (f a); Some (f b)] = map f (without l [Some a; Some b]).
Proof.
  intros Hl Ha Hb. unfold without. induction l as [|y l IH]; [reflexivity|].
  assert (Hy : In y ps) by (apply Hl; left; reflexivity).
  cbn [map filter]. rewrite IH by (intros z Hz; apply Hl; right; assumption).
  cbn [existsb strict_eq]. rewrite !eqb_rename by assumption.
  destruct (negb _); reflexivity.
Qed.

Lemma newPairing_rename (a b : string) :
  In a ps -> In b ps ->
  newPairing (Some (f a)) (Some (f b)) = omap (rename_pairing f) (newPairing (Some a) (Some b)).
Proof.
  intros Ha Hb. unfold newPairing. simpl.
  rewrite !f_falsy, eqb_rename by assumption.
  destruct (_ || _); reflexivity.
Qed.

Lemma last_is_repeat_rename (tc : TeamConfigurations) (team : list Pairing) :
  players tc = ps -> Forall (pairing_in ps) team ->
  last_is_repeat ((rename_tc f) tc) (map (rename_pairing f) team) = last_is_repeat tc team.
Proof.
  intros Hp Ht. unfold last_is_repeat. rewrite last_of_map.
  destruct (last_of team) as [p|] eqn:E; simpl; [|reflexivity].
  apply last_of_In in E. rewrite Forall_forall in Ht. destruct (Ht p E) as [H1 H2].
  rewrite Hp, !indexOf_rename by (assumption || apply incl_refl). reflexivity.
Qed.

Lemma createTeam_rec_rename (fuel : nat) (tc : TeamConfigurations)
    (team : list Pairing) (choices : list string) :
  players tc = ps -> Forall (pairing_in ps) team -> incl choices ps ->
  _createTeam_rec fuel ((rename_tc f) tc) (map (rename_pairing f) team) (map f choices)
  = omap (rename_possible f) (_createTeam_rec fuel tc team choices).
Proof.
  intros Hp. revert team choices.
  induction fuel as [|n IH]; intros team choices Ht Hc; [reflexivity|].
  simpl. rewrite last_is_repeat_rename by assumption.
  destruct (last_is_repeat tc team) as [[|]| |]; simpl; try reflexivity.
  rewrite length_map. destruct (Nat.eqb (length choices) 0); [reflexivity|].
  match goal with
  | |- bind (for_each ?l ?b') _ = omap _ (bind (for_each ?l ?b) _) =>
      rewrite (@for_each_omap _ _ (rename_possible f) l b b')
  end.
  { destruct (for_each _ _) as [[x|]| |]; reflexivity. }
  intros i _. apply for_each_omap. intros j _. unfold candidate.
  rewrite !nth_error_map.
  destruct (nth_error choices i) as [a|] eqn:Ea; [|reflexivity].
  destruct (nth_error choices j) as [b|] eqn:Eb; [|reflexivity].
  assert (Ha : In a ps) by (apply Hc; eapply nth_error_In; eassumption).
  assert (Hb : In b ps) by (apply Hc; eapply nth_error_In; eassumption).
  simpl option_map. rewrite newPairing_rename by assumption.
  destruct (newPairing (Some a) (Some b)) as [p| |] eqn:P; simpl; try reflexivity.
  apply newPairing_Ret in P. destruct P as (a' & b' & Ea' & Eb' & -> & _).
  inversion Ea'; inversion Eb'; subst a' b'.
  rewrite without_rename by assumption.
  change [(rename_pairing f) (mkPairing (a, b))] with (map (rename_pairing f) [mkPairing (a, b)]).
  rewrite <- map_app, IH.
  - destruct (_createTeam_rec n tc _ _) as [pt| |]; simpl; try reflexivity.
    destruct (possible pt); reflexivity.
  - apply Forall_app. split; [assumption|]. constructor; [|constructor].
    split; assumption.
  - intros y Hy. apply Hc. eapply without_incl. eassumption.
Qed.

Lemma updateMemo_loop_rename (m : list (list Z)) (cfg : list Pairing) :
  Forall (pairing_in ps) cfg ->
  updateMemo_loop (map f ps) m (map (rename_pairing f) cfg) = updateMemo_loop ps m cfg.
Proof.
  intros H. revert m. induction H as [|p cfg [H1 H2] _ IH]; intros m; simpl;
    [reflexivity|].
  rewrite !indexOf_rename by (assumption || apply incl_refl).
  destruct (memo_mark m _ _) as [m1| |]; simpl; try reflexivity.
  destruct (memo_mark m1 _ _) as [m2| |]; simpl; try reflexivity.
  apply IH.
Qed.

Lemma createTeams_body_rename (tc : TeamConfigurations) :
  players tc = ps ->
  createTeams_body ((rename_tc f) tc) = omap (rename_tc f) (createTeams_body tc).
Proof.
  intros Hp. unfold createTeams_body, _createTeam.
  change (players ((rename_tc f) tc)) with (map f (players tc)).
  rewrite length_map.
  change (@nil Pairing) with (map (rename_pairing f) []) at 1.
  rewrite Hp, createTeam_rec_rename by (auto using incl_refl).
  destruct (_createTeam_rec _ tc [] ps) as [pt| |] eqn:R; simpl; try reflexivity.
  destruct (possible pt); [|reflexivity].
  unfold _updateMemo. simpl.
  rewrite updateMemo_loop_rename.
  - destruct (updateMemo_loop ps (memo tc) _) as [m| |]; simpl; try reflexivity.
    unfold rename_tc. simpl. rewrite map_app. reflexivity.
  - eapply createTeam_rec_members; eauto using incl_refl.
Qed.

Lemma createTeams_loop_rename (fuel : nat) (tc : TeamConfigurations) :
  players tc = ps ->
  createTeams_loop fuel ((rename_tc f) tc) = omap (rename_tc f) (createTeams_loop fuel tc).
Proof.
  revert tc. induction fuel as [|n IH]; intros tc Hp; simpl;
    change (_allTeamsGenerated ((rename_tc f) tc)) with
      (forallb (fun row => row_sum row =? Z.of_nat (length (map f (players tc))) - 1)
               (memo tc));
    rewrite length_map; fold (_allTeamsGenerated tc);
    destruct (_allTeamsGenerated tc); try reflexivity.
  rewrite createTeams_body_rename by assumption.
  destruct (createTeams_body tc) as [tc'| |] eqn:B; simpl; try reflexivity.
  apply IH. rewrite (createTeams_body_players _ B). assumption.
Qed.
End Relabel.

(* ================================================================== *)
(** ** The rosters of eight players, up to renaming *)

Lemma init_rename (f : string -> string) (c : list string) :
  init (map f c) = rename_tc f (init c).
Proof. unfold init, rename_tc. simpl. rewrite length_map. reflexivity. Qed.

Lemma NoDup_map_inj_on {A B : Type} (f : A -> B) (l : list A) :
  NoDup (map f l) -> forall x y, In x l -> In y l -> f x = f y -> x = y.
Proof.
  induction l as [|a l IH]; simpl; intros H x y Hx Hy E; [contradiction|].
  inversion H as [|? ? Hn Hd]; subst.
  destruct Hx as [<-|Hx], Hy as [<-|Hy]; auto.
  - exfalso. apply Hn. rewrite E. apply in_map. assumption.
  - exfalso. apply Hn. rewrite <- E. apply in_map. assumption.
Qed.

Lemma tc1_loop : createTeams_loop 7 (init tc1_players) = Ret tc1_final.
Proof. vm_compute. reflexivity. Qed.

Lemma blank_loop :
  Forall (fun c => createTeams_loop 1 (init c) = Threw PairingError) blank_rosters.
Proof. repeat constructor. Qed.

Lemma blank_rosters_blank (c : list string) : In c blank_rosters -> In "" c.
Proof.
  intros H. simpl in H.
  repeat (destruct H as [<-|H]; [simpl; tauto|]). contradiction.
Qed.

Ltac dead_roster :=
  exfalso;
  match goal with
  | H : ~ In _ _ |- _ => apply H; simpl; tauto
  end.

(** A roster of eight distinct identifiers is a renaming of the roster of
    [tc1], or of that roster with one identifier blanked. *)
Lemma roster_shape (ps : list string) :
  length ps = 8%nat -> NoDup ps ->
  (shape ps = tc1_players \/ In (shape ps) blank_rosters) /\
  map (renaming (shape ps) ps) (shape ps) = ps /\
  (forall x, In x (shape ps) ->
             String.eqb (renaming (shape ps) ps x) "" = String.eqb x "").
Proof.
  intros Hlen Hnd.
  destruct ps as [|a [|b [|c [|d [|e [|f [|g [|h [|]]]]]]]]]; try discriminate.
  clear Hlen.
  repeat match goal with
         | H : NoDup (_ :: _) |- _ => inversion H; clear H; subst
         end.
  unfold shape. cbn [combine tc1_players map fst snd].
  destruct (String.eqb_spec a ""); [subst a|];
  (destruct (String.eqb_spec b ""); [subst b; try dead_roster|]);
  (destruct (String.eqb_spec c ""); [subst c; try dead_roster|]);
  (destruct (String.eqb_spec d ""); [subst d; try dead_roster|]);
  (destruct (String.eqb_spec e ""); [subst e; try dead_roster|]);
  (destruct (String.eqb_spec f ""); [subst f; try dead_roster|]);
  (destruct (String.eqb_spec g ""); [subst g; try dead_roster|]);
  (destruct (String.eqb_spec h ""); [subst h; try dead_roster|]);
  (split; [simpl; tauto|]); (split; [reflexivity|]);
  intros x Hx; simpl in Hx;
  repeat (destruct Hx as [<-|Hx]; [simpl; try reflexivity; apply String.eqb_neq; assumption|]);
  contradiction.
Qed.

Lemma constructor_ok (ps : list string) :
  length ps = 8%nat -> NoDup ps -> constructor ps = Ret (init ps).
Proof.
  intros Hlen Hnd. unfold constructor.
  apply unique_length_NoDup in Hnd. unfold init.
  rewrite Hnd, Hlen, Nat.eqb_refl. reflexivity.
Qed.

Lemma run_init (fuel : nat) (ps : list string) :
  length ps = 8%nat -> NoDup ps ->
  run fuel ps = (tc' <- createTeams_loop fuel (init ps) ;; Ret (tc', teams tc')).
Proof. intros Hlen Hnd. unfold run. rewrite constructor_ok by assumption. reflexivity. Qed.

(** What [createTeams] does on a roster of eight distinct identifiers: it
    throws at the first pairing when one of them is the empty string, and
    otherwise returns, within seven iterations, the schedule of [tc1] under
    the renaming of the players. *)
Lemma run_cases (ps : list string) :
  length ps = 8%nat -> NoDup ps ->
  (In "" ps /\ forall fuel, run (S fuel) ps = Threw PairingError) \/
  (~ In "" ps /\
   exists f, ps = map f tc1_players /\
     (forall x y, In x tc1_players -> In y tc1_players -> f x = f y -> x = y) /\
     forall fuel, (7 <= fuel)%nat ->
       run fuel ps = Ret (rename_tc f tc1_final,
                          map (map (rename_pairing f)) tc1_schedule)).
Proof.
  intros Hlen Hnd.
  destruct (roster_shape Hlen Hnd) as (Hshape & Hmap & Hfalsy).
  remember (shape ps) as c eqn:Ec. clear Ec.
  remember (renaming c ps) as f eqn:Ef. clear Ef.
  assert (Hinj : forall x y, In x c -> In y c -> f x = f y -> x = y).
  { apply NoDup_map_inj_on. rewrite Hmap. assumption. }
  assert (Hloop : forall fuel,
             createTeams_loop fuel (init ps)
             = omap (rename_tc f) (createTeams_loop fuel (init c))).
  { intros fuel. rewrite <- Hmap at 1. rewrite init_rename.
    apply createTeams_loop_rename with (ps := c); auto. }
  destruct Hshape as [Hc|Hc].
  - right. split.
    + intros Hin. rewrite <- Hmap in Hin. apply in_map_iff in Hin.
      destruct Hin as (x & Hx & Hxc). pose proof (Hfalsy x Hxc) as E.
      rewrite Hx in E. simpl in E. symmetry in E. apply String.eqb_eq in E. subst x.
      rewrite Hc in Hxc. simpl in Hxc. intuition discriminate.
    + exists f. split; [rewrite Hc in Hmap; symmetry; assumption|].
      split; [rewrite <- Hc; assumption|].
      intros fuel Hfuel. rewrite run_init, Hloop by assumption.
      rewrite (@createTeams_loop_mono 7 fuel _ (Ret tc1_final));
        [reflexivity | rewrite Hc; apply tc1_loop | discriminate | assumption].
  - left. pose proof blank_loop as HB. rewrite Forall_forall in HB.
    specialize (HB c Hc). split.
    + pose proof (blank_rosters_blank Hc) as Hin.
      pose proof (Hfalsy "" Hin) as E. simpl in E. apply String.eqb_eq in E.
      rewrite <- Hmap, <- E. apply in_map. assumption.
    + intros fuel. rewrite run_init, Hloop by assumption.
      rewrite (@createTeams_loop_mono 1 (S fuel) _ (Threw PairingError));
        [reflexivity | assumption | discriminate | lia].
Qed.

Lemma createTeams_loop_Ret_agree (n m : nat) (tc a : TeamConfigurations) :
  createTeams_loop n tc = Ret a -> createTeams_loop m tc <> OutOfFuel ->
  createTeams_loop m tc = Ret a.
Proof.
  intros Hn Hm. rewrite <- Hn. symmetry. apply createTeams_loop_agree; [|assumption].
  rewrite Hn. discriminate.
Qed.

(** Whatever the fuel, a run that returns has returned the renamed schedule
    of [tc1]. *)
Lemma run_returns (ps : list string) (fuel : nat)
    (res : TeamConfigurations * list Round) :
  length ps = 8%nat -> NoDup ps -> run fuel ps = Ret res ->
  ~ In "" ps /\
  exists f, ps = map f tc1_players /\
    (forall x y, In x tc1_players -> In y tc1_players -> f x = f y -> x = y) /\
    res = (rename_tc f tc1_final, map (map (rename_pairing f)) tc1_schedule).
Proof.
  intros Hlen Hnd Hrun. rewrite run_init in Hrun by assumption.
  apply bind_Ret_inv in Hrun. destruct Hrun as (tc' & Hloop & Hres).
  inversion Hres; subst res; clear Hres.
  destruct (run_cases Hlen Hnd) as [[_ H]|[Hnin (f & Hf & Hinj & H)]].
  - exfalso. specialize (H 0%nat). rewrite run_init in H by assumption.
    rewrite (@createTeams_loop_Ret_agree _ 1 _ _ Hloop) in H; [discriminate|].
    intros E. rewrite E in H. discriminate.
  - split; [assumption|]. exists f. split; [assumption|]. split; [assumption|].
    specialize (H 7%nat (le_n _)). rewrite run_init in H by assumption.
    rewrite (@createTeams_loop_Ret_agree _ 7 _ _ Hloop) in H.
    + inversion H. reflexivity.
    + intros E. rewrite E in H. discriminate.
Qed.

(* ================================================================== *)
(** ** Pairings as unordered pairs *)

Lemma equals_same_players (p q : Pairing) : equals p q = same_players p q.
Proof.
  destruct p as [[a b]], q as [[c d]].
  unfold equals, same_players, xor, unique, mem. simpl.
  repeat match goal with
         | |- context [String.eqb ?x ?y] =>
             destruct (String.eqb_spec x y); subst; simpl; try congruence
         end.
Qed.

Section RelabelSchedule.
Variable f : string -> string.
Variable ps : list string.
Hypothesis f_inj : forall x y, In x ps -> In y ps -> f x = f y -> x = y.

Lemma equals_rename (p q : Pairing) :
  pairing_in ps p -> pairing_in ps q ->
  equals (rename_pairing f p) (rename_pairing f q) = equals p q.
Proof.
  intros [Hp1 Hp2] [Hq1 Hq2]. rewrite !equals_same_players.
  unfold same_players, rename_pairing. simpl.
  rewrite !(@eqb_rename f ps f_inj) by assumption. reflexivity.
Qed.

Lemma occurs_in_rename (a b : string) (r : Round) :
  In a ps -> In b ps -> Forall (pairing_in ps) r ->
  occurs_in (f a) (f b) (map (rename_pairing f) r) = occurs_in a b r.
Proof.
  intros Ha Hb Hr. unfold occurs_in.
  induction Hr as [|p r Hp _ IH]; simpl; [reflexivity|].
  rewrite IH. f_equal.
  change (P (f a) (f b)) with (rename_pairing f (P a b)).
  apply equals_rename; [split; assumption | assumption].
Qed.

Lemma rounds_with_rename (a b : string) (s : list Round) :
  In a ps -> In b ps -> Forall (Forall (pairing_in ps)) s ->
  rounds_with (f a) (f b) (map (map (rename_pairing f)) s)
  = map (map (rename_pairing f)) (rounds_with a b s).
Proof.
  intros Ha Hb Hs. unfold rounds_with.
  induction Hs as [|r s Hr _ IH]; simpl; [reflexivity|].
  rewrite occurs_in_rename by assumption.
  destruct (occurs_in a b r); simpl; rewrite IH; reflexivity.
Qed.

Lemma members_rename (r : Round) :
  members (map (rename_pairing f) r) = map f (members r).
Proof.
  unfold members. induction r as [|p r IH]; simpl; [reflexivity|].
  rewrite IH. reflexivity.
Qed.
End RelabelSchedule.

Lemma allTeamsGenerated_rename (f : string -> string) (tc : TeamConfigurations) :
  _allTeamsGenerated (rename_tc f tc) = _allTeamsGenerated tc.
Proof. unfold _allTeamsGenerated, rename_tc. simpl. rewrite length_map. reflexivity. Qed.

Lemma NoDup_app_disjoint {A : Type} (l1 l2 : list A) :
  NoDup (l1 ++ l2) -> forall a, In a l1 -> ~ In a l2.
Proof.
  induction l1 as [|x l1 IH]; simpl; intros H a Ha; [contradiction|].
  inversion H as [|? ? Hn Hd]; subst. destruct Ha as [<-|Ha].
  - intros Hin. apply Hn. apply in_or_app. right; assumption.
  - apply IH; assumption.
Qed.

(** Rounds whose players are all different pair them off disjointly. *)
Lemma NoDup_members_disjoint (r : Round) :
  NoDup (members r) -> ForallOrdPairs share_no_player r.
Proof.
  unfold members. induction r as [|p r IH]; intros H; [constructor|].
  change (flat_map players_of (p :: r)) with (players_of p ++ flat_map players_of r) in H.
  constructor.
  - apply Forall_forall. intros q Hq x Hx Hxq.
    apply (NoDup_app_disjoint _ _ H x Hx). apply in_flat_map. exists q. split; assumption.
  - apply IH. eapply NoDup_app_remove_l. eassumption.
Qed.

Lemma incl_forallb_mem (l l' : list string) :
  forallb (fun x => mem x l') l = true -> incl l l'.
Proof.
  intros H x Hx. rewrite forallb_forall in H. apply mem_In. apply H. assumption.
Qed.

(** A computable test for two arrays holding the same players once each. *)
Lemma Permutation_by_test (l l' : list string) :
  length (unique l) = length l -> (length l' <= length l)%nat ->
  forallb (fun x => mem x l') l = true -> Permutation l l'.
Proof.
  intros Hu Hlen Hincl. apply NoDup_Permutation_bis.
  - apply unique_length_NoDup. assumption.
  - assumption.
  - apply incl_forallb_mem. assumption.
Qed.

(* ================================================================== *)
(** ** The schedule of [tc1] *)

Lemma tc1_players_NoDup : NoDup tc1_players.
Proof. apply unique_length_NoDup. reflexivity. Qed.

Lemma pairing_in_by_test (ps : list string) (s : list Round) :
  forallb (forallb (fun p => mem (fst (value p)) ps && mem (snd (value p)) ps)) s = true ->
  Forall (Forall (pairing_in ps)) s.
Proof.
  intros H. apply Forall_forall. intros r Hr. apply Forall_forall. intros p Hp.
  rewrite forallb_forall in H. specialize (H r Hr).
  rewrite forallb_forall in H. specialize (H p Hp).
  apply andb_prop in H. destruct H as [H1 H2]. split; apply mem_In; assumption.
Qed.

Lemma tc1_schedule_players : Forall (Forall (pairing_in tc1_players)) tc1_schedule.
Proof. apply pairing_in_by_test. reflexivity. Qed.

Lemma tc1_schedule_once (a b : string) :
  In a tc1_players -> In b tc1_players -> a <> b ->
  length (rounds_with a b tc1_schedule) = 1%nat.
Proof.
  intros Ha Hb Hab. simpl in Ha, Hb.
  repeat (destruct Ha as [<-|Ha]; [|]);
    try contradiction;
    repeat (destruct Hb as [<-|Hb]; [|]);
    try contradiction; try congruence; reflexivity.
Qed.

Lemma tc1_schedule_rounds :
  Forall (fun r => length r = 4%nat /\ Permutation (members r) tc1_players) tc1_schedule.
Proof.
  repeat constructor; apply Permutation_by_test; reflexivity.
Qed.

Lemma run_total (ps : list string) :
  length ps = 8%nat -> NoDup ps -> ~ In "" ps ->
  forall fuel, (7 <= fuel)%nat -> exists res, run fuel ps = Ret res.
Proof.
  intros Hlen Hnd Hne fuel Hfuel.
  destruct (run_cases Hlen Hnd) as [[Hin _]|[_ (f & _ & _ & H)]]; [contradiction|].
  eexists. apply H. assumption.
Qed.

Lemma tc1_run : run 7 tc1_players = Ret (tc1_final, tc1_schedule).
Proof. vm_compute. reflexivity. Qed.

(* ================================================================== *)
(** ** The generated schedule *)

(** C1 (P1, uniqueness).  For a roster of eight distinct identifiers, in the
    schedule [createTeams] returns every pair of distinct players of the
    roster is a pairing of exactly one round.  A schedule is returned, within
    seven iterations of the loop, whenever no identifier is the empty
    string. *)
Theorem every_pair_in_exactly_one_round (ps : list string) :
  length ps = 8%nat -> NoDup ps ->
  (forall fuel res, run fuel ps = Ret res ->
     forall a b, In a ps -> In b ps -> a <> b ->
       length (rounds_with a b (snd res)) = 1%nat) /\
  (~ In "" ps -> forall fuel, (7 <= fuel)%nat -> exists res, run fuel ps = Ret res).
Proof.
  intros Hlen Hnd. split; [|apply run_total; assumption].
  intros fuel res Hrun a b Ha Hb Hab.
  destruct (@run_returns _ _ _ Hlen Hnd Hrun) as (_ & f & Hps & Hinj & ->). cbn [snd].
  rewrite Hps in Ha, Hb. apply in_map_iff in Ha, Hb.
  destruct Ha as (a0 & <- & Ha0), Hb as (b0 & <- & Hb0).
  rewrite (@rounds_with_rename f tc1_players Hinj a0 b0 tc1_schedule)
    by (assumption || apply tc1_schedule_players).
  rewrite length_map. apply tc1_schedule_once; try assumption.
  intros E. apply Hab. rewrite E. reflexivity.
Qed.

Lemma every_pair_in_exactly_one_round_witness :
  length (rounds_with "3" "6" tc1_schedule) = 1%nat /\
  exists res, run 7 tc1_players = Ret res.
Proof.
  destruct (@every_pair_in_exactly_one_round tc1_players eq_refl tc1_players_NoDup)
    as [H1 H2].
  split.
  - apply (H1 7%nat (tc1_final, tc1_schedule) tc1_run "3" "6").
    + simpl; tauto.
    + simpl; tauto.
    + discriminate.
  - apply H2; [simpl; intuition discriminate | lia].
Defined.

(** C2 (P2, round validity).  For a roster of eight distinct identifiers,
    every round of the schedule [createTeams] returns has exactly four
    pairings, no two of which share a player, and the players of the round
    are exactly those of the roster, each once. *)
Theorem every_round_partitions_the_roster (ps : list string) :
  length ps = 8%nat -> NoDup ps ->
  (forall fuel res, run fuel ps = Ret res ->
     forall r, In r (snd res) ->
       length r = 4%nat /\
       ForallOrdPairs share_no_player r /\
       (forall x, In x (members r) <-> In x ps) /\
       Permutation (members r) ps) /\
  (~ In "" ps -> forall fuel, (7 <= fuel)%nat -> exists res, run fuel ps = Ret res).
Proof.
  intros Hlen Hnd. split; [|apply run_total; assumption].
  intros fuel res Hrun r Hr.
  destruct (@run_returns _ _ _ Hlen Hnd Hrun) as (_ & f & Hps & Hinj & ->).
  cbn [snd] in Hr.
  apply in_map_iff in Hr. destruct Hr as (r0 & <- & Hr0).
  pose proof tc1_schedule_rounds as HR. rewrite Forall_forall in HR.
  destruct (HR r0 Hr0) as [H4 Hperm].
  assert (HP : Permutation (members (map (rename_pairing f) r0)) ps).
  { rewrite members_rename, Hps. apply Permutation_map. assumption. }
  split; [rewrite length_map; assumption|]. split; [|split; [|assumption]].
  - apply NoDup_members_disjoint. apply Permutation_NoDup with (l := ps); [|assumption].
    apply Permutation_sym. assumption.
  - intros x. split; intros Hx.
    + eapply Permutation_in; eassumption.
    + eapply Permutation_in; [apply Permutation_sym|]; eassumption.
Qed.

Lemma every_round_partitions_the_roster_witness :
  (length [P "1" "5"; P "2" "6"; P "3" "7"; P "4" "8"] = 4%nat /\
   ForallOrdPairs share_no_player [P "1" "5"; P "2" "6"; P "3" "7"; P "4" "8"] /\
   (forall x, In x (members [P "1" "5"; P "2" "6"; P "3" "7"; P "4" "8"])
              <-> In x tc1_players) /\
   Permutation (members [P "1" "5"; P "2" "6"; P "3" "7"; P "4" "8"]) tc1_players) /\
  exists res, run 7 tc1_players = Ret res.
Proof.
  destruct (@every_round_partitions_the_roster tc1_players eq_refl tc1_players_NoDup)
    as [H1 H2].
  split.
  - apply (H1 7%nat (tc1_final, tc1_schedule) tc1_run). simpl. tauto.
  - apply H2; [simpl; intuition discriminate | lia].
Defined.

(** C3 (P3, count).  For a roster of eight distinct identifiers, the
    schedule [createTeams] returns has exactly seven rounds, and the object
    it leaves satisfies [_allTeamsGenerated]: every row of the constraint
    matrix has exactly seven used entries. *)
Theorem seven_rounds_and_complete (ps : list string) :
  length ps = 8%nat -> NoDup ps ->
  (forall fuel res, run fuel ps = Ret res ->
     length (snd res) = 7%nat /\
     _allTeamsGenerated (fst res) = true /\
     length (memo (fst res)) = 8%nat /\
     Forall (fun row => used_entries row = 7%nat) (memo (fst res))) /\
  (~ In "" ps -> forall fuel, (7 <= fuel)%nat -> exists res, run fuel ps = Ret res).
Proof.
  intros Hlen Hnd. split; [|apply run_total; assumption].
  intros fuel res Hrun.
  destruct (@run_returns _ _ _ Hlen Hnd Hrun) as (_ & f & Hps & Hinj & ->).
  cbn [fst snd]. rewrite allTeamsGenerated_rename, length_map.
  split; [reflexivity|]. split; [reflexivity|]. split; [reflexivity|].
  repeat constructor.
Qed.

Lemma seven_rounds_and_complete_witness :
  (length tc1_schedule = 7%nat /\
   _allTeamsGenerated tc1_final = true /\
   length (memo tc1_final) = 8%nat /\
   Forall (fun row => used_entries row = 7%nat) (memo tc1_final)) /\
  exists res, run 7 tc1_players = Ret res.
Proof.
  destruct (@seven_rounds_and_complete tc1_players eq_refl tc1_players_NoDup)
    as [H1 H2].
  split.
  - apply (H1 7%nat (tc1_final, tc1_schedule) tc1_run).
  - apply H2; [simpl; intuition discriminate | lia].
Defined.

(* ================================================================== *)
(** ** The example [tc1] *)

Lemma tc1_run_fuel (fuel : nat) :
  (7 <= fuel)%nat -> run fuel tc1_players = Ret (tc1_final, tc1_schedule).
Proof.
  intros Hfuel. rewrite run_init by (reflexivity || apply tc1_players_NoDup).
  rewrite (@createTeams_loop_mono 7 fuel _ (Ret tc1_final));
    [reflexivity | apply tc1_loop | discriminate | assumption].
Qed.

(** C7.  For the roster of [tc1], the first round returned is
    [(1,2),(3,4),(5,6),(7,8)], and the 28 pairings of the seven rounds are the
    28 2-combinations of the roster, each once. *)
Theorem tc1_first_round_and_all_combinations (fuel : nat) :
  (7 <= fuel)%nat ->
  exists tc' s,
    run fuel tc1_players = Ret (tc', s) /\
    nth_error s 0 = Some [P "1" "2"; P "3" "4"; P "5" "6"; P "7" "8"] /\
    length s = 7%nat /\
    length (concat s) = 28%nat /\
    length (combinations2 tc1_players) = 28%nat /\
    forall a b, In (a, b) (combinations2 tc1_players) -> times_paired a b s = 1%nat.
Proof.
  intros Hfuel. exists tc1_final, tc1_schedule.
  split; [apply tc1_run_fuel; assumption|].
  repeat (split; [reflexivity|]).
  intros a b Hab.
  assert (H : forallb (fun ab => Nat.eqb (times_paired (fst ab) (snd ab) tc1_schedule) 1)
                (combinations2 tc1_players) = true) by (vm_compute; reflexivity).
  rewrite forallb_forall in H. specialize (H (a, b) Hab).
  apply Nat.eqb_eq in H. exact H.
Qed.

Lemma tc1_first_round_and_all_combinations_witness :
  exists tc' s,
    run 7 tc1_players = Ret (tc', s) /\
    nth_error s 0 = Some [P "1" "2"; P "3" "4"; P "5" "6"; P "7" "8"] /\
    length s = 7%nat /\
    length (concat s) = 28%nat /\
    length (combinations2 tc1_players) = 28%nat /\
    forall a b, In (a, b) (combinations2 tc1_players) -> times_paired a b s = 1%nat.
Proof. apply (@tc1_first_round_and_all_combinations 7). lia. Defined.

(* ================================================================== *)
(** ** Construction *)

(** C9 (P4, rejection).  The constructor throws on a roster whose size is
    not eight or that has a duplicate identifier, and succeeds on every roster
    of eight distinct identifiers. *)
Theorem constructor_accepts_exactly_eight_distinct (ps : list string) :
  (length ps <> 8%nat \/ ~ NoDup ps ->
   exists e, constructor ps = Threw e /\ InvalidRosterError e) /\
  (length ps = 8%nat -> NoDup ps ->
   constructor ps = Ret (mkTC [] ps (repeat (repeat 0 8%nat) 8%nat))).
Proof.
  split.
  - intros H. unfold constructor.
    destruct (Nat.eqb_spec (length (unique ps)) (length ps)) as [Hu|Hu]; simpl.
    + destruct (Nat.eqb_spec (length ps) 8) as [H8|H8]; simpl.
      * exfalso. destruct H as [H|H]; [contradiction|].
        apply H. apply unique_length_NoDup. assumption.
      * exists (SizeError (length ps)). split; [reflexivity|]. right. eauto.
    + exists UniqueError. split; [reflexivity|]. left. reflexivity.
  - intros Hlen Hnd. rewrite constructor_ok by assumption.
    unfold init. rewrite Hlen. reflexivity.
Qed.

Lemma constructor_accepts_exactly_eight_distinct_witness :
  (exists e, constructor ["1"; "2"; "3"; "4"; "5"; "6"; "7"] = Threw e /\
             InvalidRosterError e) /\
  (exists e, constructor ["1"; "2"; "3"; "4"; "5"; "6"; "7"; "8"; "9"] = Threw e /\
             InvalidRosterError e) /\
  (exists e, constructor ["1"; "2"; "3"; "4"; "5"; "6"; "7"; "1"] = Threw e /\
             InvalidRosterError e) /\
  constructor tc1_players = Ret (mkTC [] tc1_players (repeat (repeat 0 8%nat) 8%nat)).
Proof.
  split; [|split; [|split]].
  - apply (constructor_accepts_exactly_eight_distinct
             ["1"; "2"; "3"; "4"; "5"; "6"; "7"]).
    left. simpl. lia.
  - apply (constructor_accepts_exactly_eight_distinct
             ["1"; "2"; "3"; "4"; "5"; "6"; "7"; "8"; "9"]).
    left. simpl. lia.
  - apply (constructor_accepts_exactly_eight_distinct
             ["1"; "2"; "3"; "4"; "5"; "6"; "7"; "1"]).
    right. intros H. apply unique_length_NoDup in H. simpl in H. lia.
  - apply (constructor_accepts_exactly_eight_distinct tc1_players).
    + reflexivity.
    + apply unique_length_NoDup. reflexivity.
Defined.

(** C10.  The [Pairing] constructor rejects every falsy player, the empty
    string included; so a roster of eight distinct strings one of which is
    empty is accepted by the [TeamConfigurations] constructor and makes
    [createTeams] throw the pairing error, the first search already. *)
Theorem empty_identifier_passes_validation_then_throws :
  (forall p1 p2, falsy p1 = true \/ falsy p2 = true ->
                 newPairing p1 p2 = Threw PairingError) /\
  (forall ps, length ps = 8%nat -> NoDup ps -> In "" ps ->
     constructor ps = Ret (init ps) /\
     forall fuel, run (S fuel) ps = Threw PairingError) /\
  (exists ps, length ps = 8%nat /\ NoDup ps /\ In "" ps /\
     constructor ps = Ret (init ps) /\
     _createTeam (init ps) [] ps = Threw PairingError /\
     forall fuel, run (S fuel) ps = Threw PairingError).
Proof.
  assert (Hall : forall ps, length ps = 8%nat -> NoDup ps -> In "" ps ->
            constructor ps = Ret (init ps) /\
            forall fuel, run (S fuel) ps = Threw PairingError).
  { intros ps Hlen Hnd Hin. split; [apply constructor_ok; assumption|].
    destruct (run_cases Hlen Hnd) as [[_ H]|[H _]]; [assumption | contradiction]. }
  split; [|split; [exact Hall|]].
  - intros [a|] [b|] H; simpl; try reflexivity.
    unfold newPairing. destruct H as [H|H]; simpl in H; rewrite H; simpl;
      [reflexivity | rewrite orb_true_r; reflexivity].
  - exists ["1"; "2"; "3"; "4"; "5"; "6"; "7"; ""].
    assert (Hnd : NoDup ["1"; "2"; "3"; "4"; "5"; "6"; "7"; ""])
      by (apply unique_length_NoDup; reflexivity).
    assert (Hin : In "" ["1"; "2"; "3"; "4"; "5"; "6"; "7"; ""]) by (simpl; tauto).
    destruct (Hall ["1"; "2"; "3"; "4"; "5"; "6"; "7"; ""] eq_refl Hnd Hin) as [Hc Hr].
    split; [reflexivity|]. split; [exact Hnd|]. split; [exact Hin|].
    split; [exact Hc|]. split; [|exact Hr].
    vm_compute. reflexivity.
Qed.

Lemma empty_identifier_passes_validation_then_throws_witness :
  newPairing (Some "") (Some "2") = Threw PairingError /\
  constructor [""; "2"; "3"; "4"; "5"; "6"; "7"; "8"]
    = Ret (init [""; "2"; "3"; "4"; "5"; "6"; "7"; "8"]) /\
  run 7 [""; "2"; "3"; "4"; "5"; "6"; "7"; "8"] = Threw PairingError.
Proof.
  destruct empty_identifier_passes_validation_then_throws as (H1 & H2 & _).
  split.
  - apply H1. left. reflexivity.
  - destruct (H2 [""; "2"; "3"; "4"; "5"; "6"; "7"; "8"]) as [Hc Hr].
    + reflexivity.
    + apply unique_length_NoDup. reflexivity.
    + simpl. tauto.
    + split; [exact Hc | exact (Hr 6%nat)].
Defined.

(* ================================================================== *)
(** ** The order of the search *)

Lemma seq_split (l1 l2 : list nat) (i : nat) :
  forall a n, seq a n = l1 ++ i :: l2 ->
  (a <= i < a + n)%nat /\ forall k, (a <= k < i)%nat -> In k l1.
Proof.
  induction l1 as [|x l1 IH]; intros a n H.
  - destruct n as [|n]; simpl in H; [discriminate|]. inversion H; subst.
    split; [lia | intros k Hk; lia].
  - destruct n as [|n]; simpl in H; [discriminate|]. inversion H; subst.
    destruct (IH _ _ H2) as [Hi Hk]. split; [lia|].
    intros k Hk'. destruct (Nat.eq_dec k x) as [->|N]; [left; reflexivity|].
    right. apply Hk. lia.
Qed.

(** A successful search at a non-empty [choices] returns what its first
    successful candidate returned: every candidate tried before it, in the
    order of the loops, had come back with [possible = false]. *)
Lemma createTeam_first_success (tc : TeamConfigurations) (team : list Pairing)
    (choices : list string) (pt : PossibleTeam) :
  _createTeam tc team choices = Ret pt -> possible pt = true -> choices <> [] ->
  exists i j,
    (i < j < length choices)%nat /\
    candidate (_createTeam tc) team choices i j = Ret (Some pt) /\
    forall i' j', (i' < j' < length choices)%nat -> tried_before i' j' i j ->
      candidate (_createTeam tc) team choices i' j' = Ret None.
Proof.
  intros H Hp Hne. rewrite createTeam_equation in H.
  apply bind_Ret_inv in H. destruct H as ([|] & _ & H).
  { inversion H; subst. discriminate. }
  destruct choices as [|c0 choices]; [contradiction|].
  set (cs := c0 :: choices) in *. change (Nat.eqb (length cs) 0) with false in H.
  cbv iota in H. apply bind_Ret_inv in H. destruct H as ([x|] & F & H);
    inversion H; subst; [|discriminate]. clear H.
  apply for_each_Some in F. destruct F as (l1 & i & l2 & Hseq & F & Hl1).
  apply for_each_Some in F. destruct F as (l1' & j & l2' & Hseq' & F & Hl1').
  apply seq_split in Hseq, Hseq'. destruct Hseq as [Hi Hbefore], Hseq' as [Hj Hbefore'].
  exists i, j. split; [lia|]. split; [assumption|].
  intros i' j' Hij [Hlt|[-> Hlt]].
  - assert (Hin : In i' l1) by (apply Hbefore; lia).
    apply Hl1 in Hin. eapply for_each_None; [exact Hin|].
    apply in_seq. lia.
  - apply Hl1'. apply Hbefore'. lia.
Qed.

(** C6 (P6, determinism).  Two runs of [createTeams] on the same roster of
    eight distinct identifiers end the same way, with the same schedule when
    they return one, and so does a second call on the same object; and the
    search takes the candidate pairs in the order of the indices, first index
    below second, returning the first success. *)
Theorem createTeams_deterministic (ps : list string) :
  length ps = 8%nat -> NoDup ps ->
  (forall fuel1 fuel2, (7 <= fuel1)%nat -> (7 <= fuel2)%nat ->
     run fuel1 ps = run fuel2 ps /\ run fuel1 ps <> OutOfFuel) /\
  (forall fuel1 fuel2 res1 res2,
     run fuel1 ps = Ret res1 -> run fuel2 ps = Ret res2 -> snd res1 = snd res2) /\
  (forall fuel res, run fuel ps = Ret res ->
     forall fuel', createTeams fuel' (fst res) = Ret res) /\
  (forall tc team choices pt,
     _createTeam tc team choices = Ret pt -> possible pt = true -> choices <> [] ->
     exists i j,
       (i < j < length choices)%nat /\
       candidate (_createTeam tc) team choices i j = Ret (Some pt) /\
       forall i' j', (i' < j' < length choices)%nat -> tried_before i' j' i j ->
         candidate (_createTeam tc) team choices i' j' = Ret None).
Proof.
  intros Hlen Hnd. split; [|split; [|split]].
  - intros fuel1 fuel2 H1 H2.
    destruct (run_cases Hlen Hnd) as [[_ H]|[_ (f & _ & _ & H)]].
    + destruct fuel1 as [|n1]; [lia|]. destruct fuel2 as [|n2]; [lia|].
      rewrite !H. split; [reflexivity | discriminate].
    + rewrite (H fuel1 H1), (H fuel2 H2). split; [reflexivity | discriminate].
  - intros fuel1 fuel2 res1 res2 H1 H2.
    destruct (@run_returns _ _ _ Hlen Hnd H1) as (_ & f1 & _ & _ & E1).
    destruct (run_cases Hlen Hnd) as [[_ H]|[_ (f & _ & _ & H)]].
    + rewrite run_init in H1 by assumption. apply bind_Ret_inv in H1.
      destruct H1 as (tc' & Hloop & _). specialize (H 0%nat).
      rewrite run_init in H by assumption.
      rewrite (@createTeams_loop_Ret_agree _ 1 _ _ Hloop) in H; [discriminate|].
      intros E. rewrite E in H. discriminate.
    + pose proof (H (max 7 (max fuel1 fuel2)) ltac:(lia)) as Hm.
      rewrite run_init in H1, H2, Hm by assumption.
      apply bind_Ret_inv in H1, H2, Hm.
      destruct H1 as (t1 & L1 & R1), H2 as (t2 & L2 & R2), Hm as (tm & Lm & Rm).
      assert (E1m : t1 = tm).
      { rewrite (@createTeams_loop_mono fuel1 (max 7 (max fuel1 fuel2)) _ _ L1) in Lm;
          [inversion Lm; reflexivity | discriminate | lia]. }
      assert (E2m : t2 = tm).
      { rewrite (@createTeams_loop_mono fuel2 (max 7 (max fuel1 fuel2)) _ _ L2) in Lm;
          [inversion Lm; reflexivity | discriminate | lia]. }
      inversion R1; inversion R2; subst. reflexivity.
  - intros fuel res Hrun fuel'.
    destruct (@run_returns _ _ _ Hlen Hnd Hrun) as (_ & f & _ & _ & ->).
    unfold createTeams. cbn [fst].
    assert (Hloop : createTeams_loop fuel' (rename_tc f tc1_final)
                    = Ret (rename_tc f tc1_final)).
    { destruct fuel'; cbn [createTeams_loop]; rewrite allTeamsGenerated_rename;
        reflexivity. }
    rewrite Hloop. reflexivity.
  - apply createTeam_first_success.
Qed.

Lemma createTeams_deterministic_witness :
  (run 7 tc1_players = run 9 tc1_players /\ run 7 tc1_players <> OutOfFuel) /\
  snd (tc1_final, tc1_schedule) = snd (tc1_final, tc1_schedule) /\
  createTeams 0 (fst (tc1_final, tc1_schedule)) = Ret (tc1_final, tc1_schedule) /\
  exists i j,
    (i < j < length tc1_players)%nat /\
    candidate (_createTeam (init tc1_players)) [] tc1_players i j
      = Ret (Some (mkPossibleTeam true
                     [P "1" "2"; P "3" "4"; P "5" "6"; P "7" "8"])) /\
    forall i' j', (i' < j' < length tc1_players)%nat -> tried_before i' j' i j ->
      candidate (_createTeam (init tc1_players)) [] tc1_players i' j' = Ret None.
Proof.
  destruct (@createTeams_deterministic tc1_players eq_refl tc1_players_NoDup)
    as (H1 & H2 & H3 & H4).
  split; [|split; [|split]].
  - apply H1; lia.
  - apply (H2 7%nat 8%nat); apply tc1_run_fuel; lia.
  - apply (H3 7%nat (tc1_final, tc1_schedule)). apply tc1_run_fuel. lia.
  - apply (H4 (init tc1_players) [] tc1_players).
    + vm_compute. reflexivity.
    + reflexivity.
    + discriminate.
Defined.

(* ================================================================== *)
(** ** Progress of the [while] loop *)

Lemma loop_state_iterate (tc0 tc : TeamConfigurations) :
  loop_state tc0 tc ->
  exists k, iterate_body k tc0 = Ret tc /\
    forall j, (j < k)%nat ->
      exists tcj, iterate_body j tc0 = Ret tcj /\ _allTeamsGenerated tcj = false.
Proof.
  induction 1 as [|tc tc' _ (k & Hk & Hj) Hc Hb].
  - exists 0%nat. split; [reflexivity | intros j Hj; lia].
  - exists (S k). split; [simpl; rewrite Hk; exact Hb|].
    intros j Hlt. destruct (Nat.eq_dec j k) as [->|N]; [eauto|].
    apply Hj. lia.
Qed.

Lemma iterate_body_players (k : nat) (tc0 tc : TeamConfigurations) :
  iterate_body k tc0 = Ret tc -> players tc = players tc0.
Proof.
  revert tc. induction k as [|k IH]; simpl; intros tc H.
  - inversion H; reflexivity.
  - apply bind_Ret_inv in H. destruct H as (t & Ht & Hb).
    rewrite (createTeams_body_players _ Hb). apply IH. assumption.
Qed.

Lemma iterate_body_rename (f : string -> string) (ps : list string) :
  (forall x y, In x ps -> In y ps -> f x = f y -> x = y) ->
  (forall x, In x ps -> String.eqb (f x) "" = String.eqb x "") ->
  forall k tc0, players tc0 = ps ->
    iterate_body k (rename_tc f tc0) = omap (rename_tc f) (iterate_body k tc0).
Proof.
  intros Hinj Hfalsy k. induction k as [|k IH]; intros tc0 Hp; simpl; [reflexivity|].
  rewrite IH by assumption.
  destruct (iterate_body k tc0) as [t| |] eqn:E; simpl; try reflexivity.
  apply createTeams_body_rename with (ps := ps); try assumption.
  rewrite (iterate_body_players _ _ E). assumption.
Qed.

Lemma createTeam_top_rename (f : string -> string) (ps : list string)
    (tc : TeamConfigurations) :
  (forall x y, In x ps -> In y ps -> f x = f y -> x = y) ->
  (forall x, In x ps -> String.eqb (f x) "" = String.eqb x "") ->
  players tc = ps ->
  _createTeam (rename_tc f tc) [] (players (rename_tc f tc))
  = omap (rename_possible f) (_createTeam tc [] (players tc)).
Proof.
  intros Hinj Hfalsy Hp. unfold _createTeam.
  change (players (rename_tc f tc)) with (map f (players tc)).
  rewrite length_map. change (@nil Pairing) with (map (rename_pairing f) []) at 1.
  rewrite Hp. apply createTeam_rec_rename with (ps := ps); auto using incl_refl.
Qed.

Lemma tc1_progress : forallb search_succeeds_at (seq 0 7) = true.
Proof. vm_compute. reflexivity. Qed.

Lemma tc1_iterate_7 : iterate_body 7 (init tc1_players) = Ret tc1_final.
Proof. vm_compute. reflexivity. Qed.

Lemma tc1_blank_free (f : string -> string) :
  ~ In "" (map f tc1_players) ->
  forall x, In x tc1_players -> String.eqb (f x) "" = String.eqb x "".
Proof.
  intros Hne x Hx.
  assert (Hfx : String.eqb (f x) "" = false).
  { apply String.eqb_neq. intros E. apply Hne. rewrite <- E. apply in_map. assumption. }
  rewrite Hfx. symmetry. apply String.eqb_neq. intros ->.
  simpl in Hx. intuition discriminate.
Qed.

(** C4, as amended.  For a roster of eight distinct identifiers none of
    which is the empty string, [createTeams] ends by progress: while the
    completion predicate is false the search finds a next round, and after
    seven iterations the predicate is true. *)
Theorem createTeams_terminates (ps : list string) :
  length ps = 8%nat -> NoDup ps -> ~ In "" ps -> terminates_by_progress ps.
Proof.
  intros Hlen Hnd Hne. exists (init ps). split; [apply constructor_ok; assumption|].
  destruct (run_cases Hlen Hnd) as [[Hin _]|[_ (f & Hps & Hinj & Hrun)]]; [contradiction|].
  assert (Hfalsy : forall x, In x tc1_players -> String.eqb (f x) "" = String.eqb x "").
  { apply tc1_blank_free. rewrite <- Hps. assumption. }
  assert (Hinit : init ps = rename_tc f (init tc1_players)).
  { rewrite Hps. apply init_rename. }
  split.
  - intros tc Hstate Hc. apply loop_state_iterate in Hstate.
    destruct Hstate as (k & Hk & Hj).
    rewrite Hinit, (@iterate_body_rename f tc1_players Hinj Hfalsy) in Hk by reflexivity.
    apply omap_Ret_inv in Hk. destruct Hk as (t & Hk & ->).
    rewrite allTeamsGenerated_rename in Hc.
    assert (Hlt : (k < 7)%nat).
    { destruct (Nat.lt_ge_cases k 7) as [Hlt|Hge]; [assumption|]. exfalso.
      destruct (Nat.eq_dec k 7) as [->|N].
      - rewrite tc1_iterate_7 in Hk. inversion Hk; subst t. discriminate.
      - destruct (Hj 7%nat ltac:(lia)) as (t7 & H7 & Hc7).
        rewrite Hinit, (@iterate_body_rename f tc1_players Hinj Hfalsy) in H7
          by reflexivity.
        rewrite tc1_iterate_7 in H7. inversion H7; subst t7.
        rewrite allTeamsGenerated_rename in Hc7. discriminate. }
    pose proof tc1_progress as HP. rewrite forallb_forall in HP.
    specialize (HP k ltac:(apply in_seq; lia)). unfold search_succeeds_at in HP.
    rewrite Hk in HP. apply andb_prop in HP. destruct HP as [_ HP].
    rewrite (@createTeam_top_rename f tc1_players t Hinj Hfalsy)
      by (rewrite (iterate_body_players _ _ Hk); reflexivity).
    destruct (_createTeam t [] (players t)) as [[poss cfg]| |]; try discriminate.
    simpl in HP. subst poss. simpl. eexists. reflexivity.
  - exists 7%nat. intros fuel Hfuel. specialize (Hrun fuel Hfuel).
    rewrite run_init in Hrun by assumption. apply bind_Ret_inv in Hrun.
    destruct Hrun as (tc' & Hloop & E). inversion E; subst.
    exists (rename_tc f tc1_final). split; [assumption|].
    rewrite allTeamsGenerated_rename. reflexivity.
Qed.

Lemma createTeams_terminates_witness : terminates_by_progress tc1_players.
Proof.
  apply (@createTeams_terminates tc1_players).
  - reflexivity.
  - apply unique_length_NoDup. reflexivity.
  - simpl. intuition discriminate.
Defined.

(** C4 as the claim states it fails on a roster of eight distinct
    identifiers one of which is the empty string: the completion predicate is
    false and the first search throws instead of finding a round. *)
Lemma createTeams_terminates_counterexample :
  length [""; "2"; "3"; "4"; "5"; "6"; "7"; "8"] = 8%nat /\
  NoDup [""; "2"; "3"; "4"; "5"; "6"; "7"; "8"] /\
  ~ terminates_by_progress [""; "2"; "3"; "4"; "5"; "6"; "7"; "8"].
Proof.
  split; [reflexivity|]. split; [apply unique_length_NoDup; reflexivity|].
  intros (tc0 & Hc & Hsearch & _).
  assert (E : tc0 = init [""; "2"; "3"; "4"; "5"; "6"; "7"; "8"]).
  { vm_compute in Hc. inversion Hc. reflexivity. }
  subst tc0. destruct (Hsearch _ (loop_start _) eq_refl) as (cfg & H).
  vm_compute in H. discriminate.
Qed.

(* ================================================================== *)
(** ** A search that fails at the top level *)

(** [stuck_tc] is the object the class's own methods produce from the
    roster of [tc1] and these five rounds. *)
Lemma stuck_tc_built :
  (tc <- constructor tc1_players ;; accept_rounds tc stuck_rounds) = Ret stuck_tc.
Proof. vm_compute. reflexivity. Qed.

Lemma stuck_tc_stuck : stuck stuck_tc.
Proof. split; [reflexivity|]. eexists. split; [vm_compute; reflexivity | reflexivity]. Qed.

Lemma stuck_never_ends (tc : TeamConfigurations) :
  stuck tc ->
  createTeams_body tc = Ret tc /\
  forall fuel, createTeams fuel tc = OutOfFuel.
Proof.
  intros [Hc (pt & Hs & Hp)].
  assert (Hb : createTeams_body tc = Ret tc).
  { unfold createTeams_body. rewrite Hs. simpl. rewrite Hp. reflexivity. }
  split; [exact Hb|].
  intros fuel. unfold createTeams. rewrite (createTeams_loop_stuck Hc Hb). reflexivity.
Qed.

(** C5, as amended.  When the search reports failure at the top level while
    the completion predicate is false, [createTeams] raises no error: the
    iteration leaves the object as it was and the loop repeats the same
    search, so no amount of fuel lets it return or throw. *)
Theorem failed_search_is_retried_forever (tc : TeamConfigurations) :
  stuck tc ->
  createTeams_body tc = Ret tc /\
  forall fuel, createTeams fuel tc = OutOfFuel.
Proof. exact (@stuck_never_ends tc). Qed.

Lemma failed_search_is_retried_forever_witness :
  createTeams_body stuck_tc = Ret stuck_tc /\
  forall fuel, createTeams fuel stuck_tc = OutOfFuel.
Proof.
  apply (@failed_search_is_retried_forever stuck_tc).
  split; [reflexivity|]. eexists. split; [vm_compute; reflexivity | reflexivity].
Defined.

(** C5 as the claim states it fails: at [stuck_tc] the search has failed at
    the top level, the predicate is false, and no error is surfaced. *)
Lemma failed_search_surfaces_no_error_counterexample :
  stuck stuck_tc /\ ~ surfaces_error stuck_tc.
Proof.
  split; [exact stuck_tc_stuck|].
  intros (e & n & H). specialize (H n (le_n n)).
  destruct (@stuck_never_ends stuck_tc stuck_tc_stuck) as [_ Hf].
  rewrite Hf in H. discriminate.
Qed.

Lemma stuck_rounds_valid :
  Forall (fun r => length r = 4%nat /\ Permutation (members r) tc1_players) stuck_rounds /\
  forallb (fun ab => Nat.leb (times_paired (fst ab) (snd ab) stuck_rounds) 1)
          (combinations2 tc1_players) = true.
Proof.
  split; [|vm_compute; reflexivity].
  repeat constructor; apply Permutation_by_test; reflexivity.
Qed.

(* ================================================================== *)
(** ** Which pairings have been checked *)

Lemma checked_last (tc : TeamConfigurations) (team : list Pairing) :
  Forall (unused tc) (removelast team) -> last_is_repeat tc team = Ret false ->
  Forall (unused tc) team.
Proof.
  intros Hall Hlast. destruct team as [|p0 team'] using rev_ind; [constructor|].
  rewrite removelast_last in Hall. apply Forall_app. split; [assumption|].
  constructor; [|constructor].
  unfold last_is_repeat in Hlast. rewrite last_of_app in Hlast. exact Hlast.
Qed.

(** In every invocation all pairings but the last have passed the test. *)
Lemma invoked_checked (tc : TeamConfigurations) (team : list Pairing)
    (choices : list string) :
  invoked tc team choices -> Forall (unused tc) (removelast team).
Proof.
  induction 1 as [|team choices i j p _ IH Hlast _ _ _]; [constructor|].
  rewrite removelast_last. apply checked_last; assumption.
Qed.

(** A successful search ends in an invocation with no choices left, whose
    partial round is the result and whose last pairing passes the test. *)
Lemma createTeam_rec_invoked (fuel : nat) (tc : TeamConfigurations)
    (team : list Pairing) (choices : list string) (pt : PossibleTeam) :
  invoked tc team choices ->
  _createTeam_rec fuel tc team choices = Ret pt -> possible pt = true ->
  invoked tc (configuration pt) [] /\
  last_is_repeat tc (configuration pt) = Ret false.
Proof.
  revert team choices pt. induction fuel as [|n IH]; intros team choices pt Hinv H Hp;
    [discriminate|].
  simpl in H. apply bind_Ret_inv in H. destruct H as ([|] & Hlast & H).
  { inversion H; subst. discriminate. }
  destruct (Nat.eqb_spec (length choices) 0) as [H0|H0].
  { inversion H; subst. simpl. apply length_zero_iff_nil in H0. subst. auto. }
  apply bind_Ret_inv in H. destruct H as ([x|] & F & H);
    inversion H; subst; [|discriminate]. clear H.
  apply for_each_Some in F. destruct F as (l1 & i & l2 & Hseq & F & _).
  apply for_each_Some in F. destruct F as (l1' & j & l2' & Hseq' & F & _).
  apply seq_split in Hseq, Hseq'. destruct Hseq as [Hi _], Hseq' as [Hj _].
  unfold candidate in F. apply bind_Ret_inv in F. destruct F as (p & Pp & F).
  apply bind_Ret_inv in F. destruct F as (pt' & R & F).
  destruct (possible pt') eqn:Hp'; inversion F; subst.
  apply (IH _ _ _ (invoked_rec (i := i) (j := j) Hinv Hlast
                     ltac:(intros ->; apply H0; reflexivity) ltac:(lia) Pp) R Hp').
Qed.

(** C8.  In every invocation of the search reachable from a top-level call,
    every pairing of the partial round except possibly the last has passed the
    test against the constraint matrix; hence every pairing of a round
    returned with [possible = true] was unused in the matrix the search
    ran on. *)
Theorem every_pairing_is_checked (tc : TeamConfigurations) :
  (forall team choices, invoked tc team choices ->
     Forall (unused tc) (removelast team)) /\
  (forall pt, _createTeam tc [] (players tc) = Ret pt -> possible pt = true ->
     invoked tc (configuration pt) [] /\ Forall (unused tc) (configuration pt)).
Proof.
  split; [apply invoked_checked|].
  intros pt H Hp.
  destruct (@createTeam_rec_invoked _ tc [] (players tc) pt (invoked_top tc) H Hp)
    as [Hinv Hlast].
  split; [assumption|]. apply checked_last; [|assumption].
  eapply invoked_checked. eassumption.
Qed.

Lemma after_round_1_reached : createTeams_body (init tc1_players) = Ret after_round_1.
Proof. vm_compute. reflexivity. Qed.

Lemma every_pairing_is_checked_witness :
  Forall (unused after_round_1) (removelast ([] ++ [P "1" "2"])) /\
  Forall (unused after_round_1) [P "1" "3"; P "2" "4"; P "5" "7"; P "6" "8"].
Proof.
  split.
  - refine (proj1 (every_pairing_is_checked after_round_1) ([] ++ [P "1" "2"])
              (without tc1_players [nth_error tc1_players 0; nth_error tc1_players 1])
              _).
    apply (@invoked_rec after_round_1 [] tc1_players 0 1 (P "1" "2")).
    + apply invoked_top.
    + reflexivity.
    + discriminate.
    + simpl. lia.
    + reflexivity.
  - refine (proj2 (proj2 (every_pairing_is_checked after_round_1)
                     (mkPossibleTeam true [P "1" "3"; P "2" "4"; P "5" "7"; P "6" "8"])
                     _ _)).
    + vm_compute. reflexivity.
    + reflexivity.
Defined.

(* ================================================================== *)
(** ** More on [Pairing] *)

(** X1.  [new Pairing(p1, p2)] returns exactly when both players are
    non-empty strings and they differ; the pairing then holds them in the
    order given.  In every other case it throws the pairing error. *)
Theorem newPairing_returns_iff (p1 p2 : jsval) :
  (forall p, newPairing p1 p2 = Ret p <->
     exists a b, p1 = Some a /\ p2 = Some b /\ a <> "" /\ b <> "" /\ a <> b /\
                 value p = (a, b)) /\
  (newPairing p1 p2 = Threw PairingError \/ exists p, newPairing p1 p2 = Ret p).
Proof.
  split.
  - intros p. split.
    + intros H. apply newPairing_Ret in H.
      destruct H as (a & b & -> & -> & -> & Ha & Hb & Hab).
      exists a, b. auto 8.
    + intros (a & b & -> & -> & Ha & Hb & Hab & Hv).
      unfold newPairing. simpl.
      apply String.eqb_neq in Ha, Hb, Hab. rewrite Ha, Hb, Hab. simpl.
      destruct p as [v]. simpl in Hv. subst v. reflexivity.
  - unfold newPairing. destruct p1 as [a|], p2 as [b|]; auto.
    destruct (_ || _); eauto.
Qed.

Lemma players_of_In (p : Pairing) (x : string) :
  In x (players_of p) <-> x = fst (value p) \/ x = snd (value p).
Proof. unfold players_of. simpl. intuition. Qed.

Lemma equals_spec (p q : Pairing) :
  equals p q = true <-> (forall x, In x (players_of p) <-> In x (players_of q)).
Proof.
  rewrite equals_same_players. unfold same_players.
  destruct p as [[a b]], q as [[c d]]. simpl.
  rewrite !andb_true_iff, !orb_true_iff, !String.eqb_eq. split.
  - intros [[[H1 H2] H3] H4] x. split; intros [<-|[<-|[]]]; intuition.
  - intros H.
    pose proof (proj1 (H a) (or_introl eq_refl)) as Ha.
    pose proof (proj1 (H b) (or_intror (or_introl eq_refl))) as Hb.
    pose proof (proj2 (H c) (or_introl eq_refl)) as Hc.
    pose proof (proj2 (H d) (or_intror (or_introl eq_refl))) as Hd.
    simpl in Ha, Hb, Hc, Hd. intuition.
Qed.

(** X2.  [p.equals(q)] is true exactly when the two pairings have the same
    players, whatever the order in which each holds them. *)
Theorem equals_iff_same_players (p q : Pairing) :
  equals p q = true <-> (forall x, In x (players_of p) <-> In x (players_of q)).
Proof. exact (equals_spec p q). Qed.

(** X3 (P5).  A pairing equals itself with its players swapped, and differs
    from a pairing that keeps one player and changes the other. *)
Theorem equals_ignores_order_and_tells_partners_apart (a b c : string) :
  equals (P a b) (P b a) = true /\
  (b <> c -> equals (P a b) (P a c) = false /\ equals (P b a) (P c a) = false).
Proof.
  split.
  - apply equals_spec. intros x. unfold players_of, P. simpl. tauto.
  - intros Hbc. split.
    + destruct (equals (P a b) (P a c)) eqn:E; [|reflexivity]. exfalso.
      rewrite equals_spec in E. unfold players_of, P in E. simpl in E.
      pose proof (proj1 (E b)). pose proof (proj2 (E c)). intuition congruence.
    + destruct (equals (P b a) (P c a)) eqn:E; [|reflexivity]. exfalso.
      rewrite equals_spec in E. unfold players_of, P in E. simpl in E.
      pose proof (proj1 (E b)). pose proof (proj2 (E c)). intuition congruence.
Qed.

Lemma equals_ignores_order_and_tells_partners_apart_witness :
  equals (P "Alice" "Bob") (P "Bob" "Alice") = true /\
  equals (P "Alice" "Bob") (P "Alice" "Charlie") = false /\
  equals (P "Bob" "Alice") (P "Charlie" "Alice") = false.
Proof.
  destruct (equals_ignores_order_and_tells_partners_apart "Alice" "Bob" "Charlie")
    as [H1 H2].
  split; [exact H1|]. apply H2. discriminate.
Defined.

(** X4.  [equals] is an equivalence on pairings. *)
Theorem equals_equivalence (p q r : Pairing) :
  equals p p = true /\
  equals p q = equals q p /\
  (equals p q = true -> equals q r = true -> equals p r = true).
Proof.
  split; [|split].
  - apply equals_spec. tauto.
  - apply eq_true_iff_eq. rewrite !equals_spec.
    split; intros H x; symmetry; apply H.
  - rewrite !equals_spec. intros H1 H2 x. rewrite H1. apply H2.
Qed.

Lemma equals_equivalence_witness :
  equals (P "1" "2") (P "2" "1") = true /\
  equals (P "2" "1") (P "3" "4") = false /\
  equals (P "1" "2") (P "1" "2") = true.
Proof.
  split; [reflexivity|]. split; [reflexivity|].
  apply (proj2 (proj2 (equals_equivalence (P "1" "2") (P "2" "1") (P "1" "2"))));
    reflexivity.
Defined.

(* ================================================================== *)
(** ** The constraint matrix *)

Lemma nth_error_replace {A : Type} (l : list A) (i k : nat) (x : A) :
  (i < length l)%nat ->
  nth_error (firstn i l ++ x :: skipn (S i) l) k
  = if Nat.eqb k i then Some x else nth_error l k.
Proof.
  revert i k. induction l as [|y l IH]; intros i k Hi; simpl in Hi; [lia|].
  destruct i as [|i]; simpl.
  - destruct k; reflexivity.
  - destruct k as [|k]; simpl; [reflexivity|]. apply IH. lia.
Qed.

Lemma length_replace {A : Type} (l : list A) (i : nat) (x : A) :
  (i < length l)%nat -> length (firstn i l ++ x :: skipn (S i) l) = length l.
Proof.
  revert i. induction l as [|y l IH]; intros i Hi; simpl in Hi; [lia|].
  destruct i as [|i]; simpl; [reflexivity|]. rewrite IH by lia. reflexivity.
Qed.

Lemma Forall_replace {A : Type} (Q : A -> Prop) (l : list A) (i : nat) (x : A) :
  Forall Q l -> Q x -> Forall Q (firstn i l ++ x :: skipn (S i) l).
Proof.
  intros Hl Hx. revert i. induction Hl as [|y l Hy Hl IH]; intros i.
  - destruct i; simpl; constructor; auto.
  - destruct i as [|i]; simpl; constructor; auto.
Qed.

Lemma set_nat_length (l : list Z) (j : nat) (v : Z) :
  (j < length l)%nat -> length (set_nat l j v) = length l.
Proof.
  revert j. induction l as [|y l IH]; intros j Hj; simpl in Hj; [lia|].
  destruct j as [|j]; simpl; [reflexivity|]. rewrite IH by lia. reflexivity.
Qed.

Lemma set_nat_nth_error (l : list Z) (j k : nat) (v : Z) :
  (j < length l)%nat ->
  nth_error (set_nat l j v) k = if Nat.eqb k j then Some v else nth_error l k.
Proof.
  revert j k. induction l as [|y l IH]; intros j k Hj; simpl in Hj; [lia|].
  destruct j as [|j]; simpl.
  - destruct k; reflexivity.
  - destruct k as [|k]; simpl; [reflexivity|]. apply IH. lia.
Qed.

Lemma get_nat {A : Type} (l : list A) (i : nat) : get l (Z.of_nat i) = nth_error l i.
Proof.
  unfold get. destruct (Z.ltb_spec (Z.of_nat i) 0); [lia|]. rewrite Nat2Z.id. reflexivity.
Qed.

Lemma get_minus_one {A : Type} (l : list A) : get l (-1) = None.
Proof. reflexivity. Qed.

Lemma square_row (n : nat) (m : list (list Z)) (i : nat) :
  square n m -> (i < n)%nat -> exists row, nth_error m i = Some row /\ length row = n.
Proof.
  intros [Hlen Hrows] Hi. destruct (nth_error m i) as [row|] eqn:E.
  - exists row. split; [reflexivity|]. rewrite Forall_forall in Hrows.
    apply Hrows. eapply nth_error_In. eassumption.
  - apply nth_error_None in E. lia.
Qed.

Lemma memo_used_nat (m : list (list Z)) (i j : nat) (row : list Z) (v : Z) :
  nth_error m i = Some row -> nth_error row j = Some v ->
  memo_used m (Z.of_nat i) (Z.of_nat j) = Ret (negb (v =? 0)).
Proof. intros Hr Hv. unfold memo_used. rewrite get_nat, Hr, get_nat, Hv. reflexivity. Qed.

(** One assignment [this.memo[i][j] = 1] inside the matrix: the shape stays,
    the entry reads as used, every other entry reads as before. *)
Lemma memo_mark_in_range (n : nat) (m : list (list Z)) (i j : nat) :
  square n m -> (i < n)%nat -> (j < n)%nat ->
  exists m', memo_mark m (Z.of_nat i) (Z.of_nat j) = Ret m' /\ square n m' /\
    forall i' j', (i' < n)%nat -> (j' < n)%nat ->
      exists u, memo_used m (Z.of_nat i') (Z.of_nat j') = Ret u /\
                memo_used m' (Z.of_nat i') (Z.of_nat j')
                = Ret (u || (Nat.eqb i' i && Nat.eqb j' j)).
Proof.
  intros Hsq Hi Hj. destruct (square_row Hsq Hi) as (row & Hrow & Hlen).
  destruct Hsq as [Hm Hrows].
  unfold memo_mark. rewrite get_nat, Hrow, Nat2Z.id. eexists. split; [reflexivity|].
  assert (Hset : set row (Z.of_nat j) 1 = set_nat row j 1).
  { unfold set. destruct (Z.ltb_spec (Z.of_nat j) 0); [lia|]. rewrite Nat2Z.id. reflexivity. }
  rewrite Hset. split.
  - split; [rewrite length_replace; lia|].
    apply Forall_replace; [assumption|]. rewrite set_nat_length; lia.
  - intros i' j' Hi' Hj'.
    destruct (@square_row n m i' (conj Hm Hrows) Hi') as (row' & Hrow' & Hlen').
    destruct (nth_error row' j') as [v|] eqn:Hv;
      [|apply nth_error_None in Hv; lia].
    exists (negb (v =? 0)). split; [apply (@memo_used_nat m i' j' row' v Hrow' Hv)|].
    destruct (Nat.eqb_spec i' i) as [->|Ni]; cbn [andb].
    + rewrite Hrow in Hrow'. inversion Hrow'; subst row'.
      destruct (Nat.eqb_spec j' j) as [->|Nj].
      * rewrite orb_true_r.
        apply memo_used_nat with (row := set_nat row j 1) (v := 1).
        -- rewrite nth_error_replace, Nat.eqb_refl by lia. reflexivity.
        -- rewrite set_nat_nth_error, Nat.eqb_refl by lia. reflexivity.
      * rewrite orb_false_r.
        apply memo_used_nat with (row := set_nat row j 1).
        -- rewrite nth_error_replace, Nat.eqb_refl by lia. reflexivity.
        -- rewrite set_nat_nth_error by lia.
           destruct (Nat.eqb_spec j' j); [contradiction | assumption].
    + rewrite orb_false_r. apply memo_used_nat with (row := row'); [|assumption].
      rewrite nth_error_replace by lia.
      destruct (Nat.eqb_spec i' i); [contradiction | assumption].
Qed.

Lemma indexOf_nth_error (ps : list string) (x : string) :
  In x ps ->
  exists i, indexOf ps x = Z.of_nat i /\ (i < length ps)%nat /\ nth_error ps i = Some x.
Proof.
  induction ps as [|y ps IH]; simpl; [intros []|]. intros H.
  destruct (String.eqb_spec y x) as [->|N].
  - exists 0%nat. split; [reflexivity|]. split; [lia | reflexivity].
  - destruct H as [H|H]; [contradiction|].
    destruct (IH H) as (i & Hi & Hlt & Hnth). exists (S i). rewrite Hi.
    destruct (Z.ltb_spec (Z.of_nat i) 0); [lia|]. split; [lia|]. split; [lia | assumption].
Qed.

Lemma indexOf_absent (ps : list string) (x : string) : ~ In x ps -> indexOf ps x = -1.
Proof.
  induction ps as [|y ps IH]; simpl; [reflexivity|]. intros H.
  destruct (String.eqb_spec y x) as [->|N]; [exfalso; auto|].
  rewrite IH by auto. reflexivity.
Qed.

Lemma indexOf_eqb (ps : list string) (x y : string) (i j : nat) :
  In x ps -> In y ps -> indexOf ps x = Z.of_nat i -> indexOf ps y = Z.of_nat j ->
  Nat.eqb i j = String.eqb x y.
Proof.
  intros Hx Hy Hi Hj.
  destruct (indexOf_nth_error ps x Hx) as (i' & Hi' & _ & Hnx).
  destruct (indexOf_nth_error ps y Hy) as (j' & Hj' & _ & Hny).
  assert (i' = i) by lia. assert (j' = j) by lia. subst i' j'.
  destruct (String.eqb_spec x y) as [->|N].
  - apply Nat.eqb_eq. lia.
  - apply Nat.eqb_neq. intros ->. congruence.
Qed.

Lemma same_players_either_order (a b : string) (p : Pairing) :
  same_players (P a b) p
  = (String.eqb a (fst (value p)) && String.eqb b (snd (value p)))
    || (String.eqb a (snd (value p)) && String.eqb b (fst (value p))).
Proof.
  destruct p as [[c d]]. unfold same_players, P. simpl.
  repeat match goal with
         | |- context [String.eqb ?x ?y] =>
             destruct (String.eqb_spec x y); subst; simpl; try congruence
         end.
Qed.

(** What [_updateMemo] does to the matrix when every player of [validTeam]
    is in the roster: it returns, keeps the shape, and a pair of roster
    players reads as used afterwards exactly when it did before or
    [validTeam] has a pairing of the two, in either order. *)
Lemma updateMemo_loop_marks (ps : list string) (vt : list Pairing) :
  forall m, square (length ps) m -> Forall (pairing_in ps) vt ->
  exists m', updateMemo_loop ps m vt = Ret m' /\ square (length ps) m' /\
    forall a b, In a ps -> In b ps ->
      exists u, memo_used m (indexOf ps a) (indexOf ps b) = Ret u /\
                memo_used m' (indexOf ps a) (indexOf ps b)
                = Ret (u || existsb (equals (P a b)) vt).
Proof.
  induction vt as [|p vt IH]; intros m Hsq Hvt.
  - exists m. split; [reflexivity|]. split; [assumption|]. intros a b Ha Hb.
    destruct (indexOf_nth_error ps a Ha) as (ia & Hia & Hlta & _).
    destruct (indexOf_nth_error ps b Hb) as (ib & Hib & Hltb & _).
    destruct (memo_mark_in_range Hsq Hlta Hltb) as (m0 & _ & _ & Hread).
    destruct (Hread ia ib Hlta Hltb) as (u & Hu & _).
    exists u. rewrite Hia, Hib, orb_false_r. auto.
  - inversion Hvt as [|? ? [Hp1 Hp2] Hrest]; subst.
    destruct (indexOf_nth_error ps _ Hp1) as (i1 & Hi1 & Hlt1 & _).
    destruct (indexOf_nth_error ps _ Hp2) as (i2 & Hi2 & Hlt2 & _).
    destruct (memo_mark_in_range Hsq Hlt1 Hlt2) as (m1 & Hm1 & Hsq1 & Hread1).
    destruct (memo_mark_in_range Hsq1 Hlt2 Hlt1) as (m2 & Hm2 & Hsq2 & Hread2).
    destruct (IH m2 Hsq2 Hrest) as (m' & Hm' & Hsq' & Hread').
    exists m'. split.
    { simpl. rewrite Hi1, Hi2, Hm1. simpl. rewrite Hm2. simpl. exact Hm'. }
    split; [assumption|]. intros a b Ha Hb.
    destruct (indexOf_nth_error ps a Ha) as (ia & Hia & Hlta & _).
    destruct (indexOf_nth_error ps b Hb) as (ib & Hib & Hltb & _).
    destruct (Hread1 ia ib Hlta Hltb) as (u & Hu & Hu1).
    destruct (Hread2 ia ib Hlta Hltb) as (u1 & Hu1' & Hu2).
    destruct (Hread' a b Ha Hb) as (u2 & Hu2' & Hu').
    rewrite Hia, Hib in *. exists u. split; [assumption|].
    rewrite Hu'. rewrite Hu2 in Hu2'. inversion Hu2'; subst u2.
    rewrite Hu1 in Hu1'. inversion Hu1'; subst u1.
    f_equal. cbn [existsb]. rewrite equals_same_players, same_players_either_order.
    rewrite (@indexOf_eqb ps a (fst (value p)) ia i1) by assumption.
    rewrite (@indexOf_eqb ps b (snd (value p)) ib i2) by assumption.
    rewrite (@indexOf_eqb ps a (snd (value p)) ia i2) by assumption.
    rewrite (@indexOf_eqb ps b (fst (value p)) ib i1) by assumption.
    rewrite <- !orb_assoc. reflexivity.
Qed.

Lemma equals_P_swap (a b : string) (q : Pairing) : equals (P a b) q = equals (P b a) q.
Proof.
  apply eq_true_iff_eq. rewrite !equals_spec.
  unfold players_of, P. simpl. split; intros H x; rewrite <- H; tauto.
Qed.

Lemma updateMemo_marks (tc : TeamConfigurations) (vt : list Pairing) :
  square (length (players tc)) (memo tc) -> Forall (pairing_in (players tc)) vt ->
  exists tc', _updateMemo tc vt = Ret tc' /\
    teams tc' = teams tc /\ players tc' = players tc /\
    square (length (players tc)) (memo tc') /\
    forall a b, In a (players tc) -> In b (players tc) ->
      exists u,
        memo_used (memo tc) (indexOf (players tc) a) (indexOf (players tc) b) = Ret u /\
        memo_used (memo tc') (indexOf (players tc) a) (indexOf (players tc) b)
        = Ret (u || existsb (equals (P a b)) vt).
Proof.
  intros Hsq Hvt.
  destruct (@updateMemo_loop_marks (players tc) vt (memo tc) Hsq Hvt)
    as (m' & Hm' & Hsq' & Hread).
  exists (mkTC (teams tc) (players tc) m'). unfold _updateMemo. rewrite Hm'.
  simpl. auto.
Qed.

(** X5.  [_updateMemo(validTeam)], when the matrix is square on the roster
    and every player of [validTeam] is in the roster: it returns, leaves
    [teams] and [players] alone and the matrix square, and two roster players
    read as used afterwards exactly when they did before or [validTeam] has a
    pairing that [equals] theirs. *)
Theorem updateMemo_marks_exactly_the_pairings (tc : TeamConfigurations)
    (vt : list Pairing) :
  square (length (players tc)) (memo tc) -> Forall (pairing_in (players tc)) vt ->
  exists tc', _updateMemo tc vt = Ret tc' /\
    teams tc' = teams tc /\ players tc' = players tc /\
    square (length (players tc)) (memo tc') /\
    forall a b, In a (players tc) -> In b (players tc) ->
      exists u,
        memo_used (memo tc) (indexOf (players tc) a) (indexOf (players tc) b) = Ret u /\
        memo_used (memo tc') (indexOf (players tc) a) (indexOf (players tc) b)
        = Ret (u || existsb (equals (P a b)) vt).
Proof. exact (@updateMemo_marks tc vt). Qed.

Lemma updateMemo_marks_exactly_the_pairings_witness :
  exists tc', _updateMemo (init tc1_players) [P "3" "1"; P "2" "4"] = Ret tc' /\
    memo_used (memo tc') (indexOf tc1_players "1") (indexOf tc1_players "3") = Ret true /\
    memo_used (memo tc') (indexOf tc1_players "1") (indexOf tc1_players "2") = Ret false.
Proof.
  destruct (@updateMemo_marks_exactly_the_pairings (init tc1_players)
              [P "3" "1"; P "2" "4"]) as (tc' & H & _ & _ & _ & Hread).
  - split; [reflexivity|]. repeat constructor.
  - pose proof (@pairing_in_by_test tc1_players [[P "3" "1"; P "2" "4"]] eq_refl) as H.
    inversion H; assumption.
  - exists tc'. split; [exact H|]. split.
    + destruct (Hread "1" "3") as (u & Hu & Hu'); [simpl; tauto | simpl; tauto |].
      vm_compute in Hu. inversion Hu; subst u. exact Hu'.
    + destruct (Hread "1" "2") as (u & Hu & Hu'); [simpl; tauto | simpl; tauto |].
      vm_compute in Hu. inversion Hu; subst u. exact Hu'.
Defined.

(** X6.  [_updateMemo] marks [memo[i][j]] and [memo[j][i]] together: a
    matrix that reads the same in both orders still does afterwards. *)
Theorem updateMemo_keeps_symmetry (tc tc' : TeamConfigurations) (vt : list Pairing) :
  square (length (players tc)) (memo tc) -> Forall (pairing_in (players tc)) vt ->
  symmetric_on (players tc) (memo tc) ->
  _updateMemo tc vt = Ret tc' ->
  symmetric_on (players tc') (memo tc').
Proof.
  intros Hsq Hvt Hsym Hup.
  destruct (@updateMemo_marks tc vt Hsq Hvt)
    as (tc'' & Hup' & _ & Hp & _ & Hread).
  rewrite Hup in Hup'. inversion Hup'; subst tc''. rewrite Hp.
  intros a b Ha Hb.
  destruct (Hread a b Ha Hb) as (u & Hu & ->).
  destruct (Hread b a Hb Ha) as (u' & Hu' & ->).
  rewrite (Hsym a b Ha Hb), Hu' in Hu. inversion Hu; subst u'.
  f_equal. f_equal. clear. induction vt as [|q vt IH]; simpl; [reflexivity|].
  rewrite IH, equals_P_swap. reflexivity.
Qed.

Lemma updateMemo_keeps_symmetry_witness :
  exists tc', _updateMemo (init tc1_players) [P "3" "1"; P "2" "4"] = Ret tc' /\
              symmetric_on (players tc') (memo tc').
Proof.
  assert (Hsq : square (length (players (init tc1_players))) (memo (init tc1_players))).
  { split; [reflexivity|]. apply Forall_forall. intros row Hrow.
    apply repeat_spec in Hrow. subst. reflexivity. }
  assert (Hin : Forall (pairing_in (players (init tc1_players))) [P "3" "1"; P "2" "4"]).
  { pose proof (@pairing_in_by_test tc1_players [[P "3" "1"; P "2" "4"]] eq_refl) as H.
    inversion H; assumption. }
  destruct (@updateMemo_marks (init tc1_players) [P "3" "1"; P "2" "4"] Hsq Hin)
    as (tc' & H & _).
  exists tc'. split; [exact H|].
  apply (@updateMemo_keeps_symmetry (init tc1_players) tc' [P "3" "1"; P "2" "4"]);
    try assumption.
  intros a b Ha Hb. simpl in Ha, Hb.
  repeat (destruct Ha as [<-|Ha]; [repeat (destruct Hb as [<-|Hb]; [reflexivity|]); contradiction|]).
  contradiction.
Defined.

Lemma memo_mark_unknown_row (m : list (list Z)) (j : Z) :
  memo_mark m (-1) j = Threw TypeError.
Proof. reflexivity. Qed.

Lemma memo_mark_unknown_column (n : nat) (m : list (list Z)) (i : nat) :
  square n m -> (i < n)%nat -> exists m', memo_mark m (Z.of_nat i) (-1) = Ret m'.
Proof.
  intros Hsq Hi. destruct (square_row Hsq Hi) as (row & Hrow & _).
  unfold memo_mark. rewrite get_nat, Hrow. eauto.
Qed.

(** X7.  [_updateMemo(validTeam)] on a square matrix throws a [TypeError]
    as soon as a pairing of [validTeam] has a player who is not in the roster
    ([indexOf] gives [-1], and [this.memo[-1]] is [undefined]). *)
Theorem updateMemo_unknown_player_throws (tc : TeamConfigurations) (vt : list Pairing) :
  square (length (players tc)) (memo tc) ->
  Exists (fun p => ~ pairing_in (players tc) p) vt ->
  _updateMemo tc vt = Threw TypeError.
Proof.
  destruct tc as [ts ps m0]. unfold _updateMemo. cbn [players memo teams].
  intros Hsq Hex.
  assert (H : updateMemo_loop ps m0 vt = Threw TypeError);
    [|rewrite H; reflexivity].
  revert m0 Hsq.
  induction vt as [|p vt IH]; intros m Hsq; [inversion Hex|].
  cbn [updateMemo_loop].
  destruct (in_dec string_dec (fst (value p)) ps) as [H1|H1].
  - destruct (indexOf_nth_error ps _ H1) as (i1 & Hi1 & Hlt1 & _). rewrite Hi1.
    destruct (in_dec string_dec (snd (value p)) ps) as [H2|H2].
    + destruct (indexOf_nth_error ps _ H2) as (i2 & Hi2 & Hlt2 & _). rewrite Hi2.
      destruct (memo_mark_in_range Hsq Hlt1 Hlt2) as (m1 & Hm1 & Hsq1 & _).
      destruct (memo_mark_in_range Hsq1 Hlt2 Hlt1) as (m2 & Hm2 & Hsq2 & _).
      rewrite Hm1. simpl. rewrite Hm2. simpl. apply IH; [|assumption].
      apply Exists_cons in Hex. destruct Hex as [Hp|Hrest]; [|assumption].
      exfalso. apply Hp. split; assumption.
    + rewrite (indexOf_absent _ _ H2).
      destruct (memo_mark_unknown_column Hsq Hlt1) as (m1 & Hm1).
      rewrite Hm1. reflexivity.
  - rewrite (indexOf_absent _ _ H1). reflexivity.
Qed.

Lemma updateMemo_unknown_player_throws_witness :
  _updateMemo (init tc1_players) [P "1" "2"; P "3" "Zed"] = Threw TypeError.
Proof.
  apply updateMemo_unknown_player_throws.
  - split; [reflexivity|]. repeat constructor.
  - apply Exists_cons_tl. apply Exists_cons_hd. intros [_ H]. simpl in H.
    intuition discriminate.
Defined.

(* ================================================================== *)
(** ** The shape of what the search returns *)

Lemma without_In (l : list string) (a b x : string) :
  In x (without l [Some a; Some b]) <-> In x l /\ x <> a /\ x <> b.
Proof.
  unfold without. rewrite filter_In. simpl.
  destruct (String.eqb_spec x a), (String.eqb_spec x b); simpl; intuition congruence.
Qed.

Lemma without_NoDup (l : list string) (vals : list jsval) :
  NoDup l -> NoDup (without l vals).
Proof. apply NoDup_filter. Qed.

(** Taking two different players out of an array without repeats leaves the
    rest: put back, they give the array again, up to order. *)
Lemma without_Permutation (l : list string) (a b : string) :
  NoDup l -> In a l -> In b l -> a <> b ->
  Permutation (a :: b :: without l [Some a; Some b]) l.
Proof.
  intros Hnd Ha Hb Hab. apply NoDup_Permutation; [|assumption|].
  - constructor; [|constructor; [|apply without_NoDup; assumption]].
    + intros [E|H]; [congruence|]. apply without_In in H. intuition.
    + intros H. apply without_In in H. intuition.
  - intros x. simpl. rewrite without_In.
    destruct (string_dec x a), (string_dec x b); subst; intuition congruence.
Qed.

Lemma nth_error_before (l : list string) (i j : nat) (a b : string) :
  (i < j)%nat -> nth_error l i = Some a -> nth_error l j = Some b -> before l a b.
Proof.
  intros Hij Ha Hb. apply nth_error_split in Ha. destruct Ha as (l1 & r & -> & Hlen).
  rewrite nth_error_app2 in Hb by lia.
  replace (j - length l1)%nat with (S (j - length l1 - 1)) in Hb by lia. simpl in Hb.
  apply nth_error_split in Hb. destruct Hb as (l2 & l3 & -> & _).
  exists l1, l2, l3. reflexivity.
Qed.

Lemma before_nth_error (l1 l2 l3 : list string) (a b : string) :
  nth_error (l1 ++ a :: l2 ++ b :: l3) (length l1) = Some a /\
  nth_error (l1 ++ a :: l2 ++ b :: l3) (length l1 + 1 + length l2) = Some b.
Proof.
  split.
  - rewrite nth_error_app2, Nat.sub_diag by lia. reflexivity.
  - rewrite nth_error_app2 by lia.
    replace (length l1 + 1 + length l2 - length l1)%nat with (S (length l2)) by lia.
    simpl. rewrite nth_error_app2, Nat.sub_diag by lia. reflexivity.
Qed.

Lemma before_filter (f : string -> bool) (l : list string) (a b : string) :
  before (filter f l) a b -> before l a b.
Proof.
  revert a b. induction l as [|x l IH]; intros a b (l1 & l2 & l3 & H); simpl in H.
  - destruct l1; discriminate.
  - destruct (f x).
    + destruct l1 as [|y l1]; simpl in H; inversion H; subst.
      * assert (Hb : In b (filter f l)) by (rewrite H2; apply in_or_app; right; left; reflexivity).
        apply filter_In in Hb. destruct Hb as [Hb _]. apply in_split in Hb.
        destruct Hb as (r1 & r2 & ->). exists [], r1, r2. reflexivity.
      * destruct (IH a b) as (r1 & r2 & r3 & ->); [exists l1, l2, l3; assumption|].
        exists (y :: r1), r2, r3. reflexivity.
    + destruct (IH a b) as (r1 & r2 & r3 & ->); [exists l1, l2, l3; assumption|].
      exists (x :: r1), r2, r3. reflexivity.
Qed.

(** X8.  A search that reports failure hands back the empty array, never a
    partial round. *)
Theorem failed_search_has_no_round (fuel : nat) (tc : TeamConfigurations)
    (team : list Pairing) (choices : list string) (pt : PossibleTeam) :
  _createTeam_rec fuel tc team choices = Ret pt -> possible pt = false ->
  configuration pt = [].
Proof.
  revert team choices pt. induction fuel as [|n IH]; intros team choices pt H Hp;
    [discriminate|].
  simpl in H. apply bind_Ret_inv in H. destruct H as ([|] & _ & H).
  { inversion H; reflexivity. }
  destruct (Nat.eqb (length choices) 0).
  { inversion H; subst. discriminate. }
  apply bind_Ret_inv in H. destruct H as ([x|] & F & H); inversion H; subst;
    [|reflexivity].
  apply for_each_Some in F. destruct F as (_ & i & _ & _ & F & _).
  apply for_each_Some in F. destruct F as (_ & j & _ & _ & F & _).
  unfold candidate in F. apply bind_Ret_inv in F. destruct F as (p & _ & F).
  apply bind_Ret_inv in F. destruct F as (pt' & R & F).
  destruct (possible pt') eqn:E; inversion F; subst. congruence.
Qed.

Lemma failed_search_has_no_round_witness :
  configuration (mkPossibleTeam false []) = [].
Proof.
  apply (@failed_search_has_no_round 9 stuck_tc [] tc1_players (mkPossibleTeam false [])).
  - vm_compute. reflexivity.
  - reflexivity.
Defined.

(** A successful search has added to [team] pairings that the constructor
    accepted, each in the order of [choices], whose players are those of
    [choices], each once. *)
Lemma createTeam_rec_partition (fuel : nat) (tc : TeamConfigurations)
    (team : list Pairing) (choices : list string) (pt : PossibleTeam) :
  NoDup choices ->
  _createTeam_rec fuel tc team choices = Ret pt -> possible pt = true ->
  exists added,
    configuration pt = team ++ added /\
    Permutation (members added) choices /\
    Forall proper added /\
    Forall (in_order choices) added.
Proof.
  revert team choices pt. induction fuel as [|n IH]; intros team choices pt Hnd H Hp;
    [discriminate|].
  simpl in H. apply bind_Ret_inv in H. destruct H as ([|] & _ & H).
  { inversion H; subst. discriminate. }
  destruct (Nat.eqb_spec (length choices) 0) as [H0|H0].
  { inversion H; subst. apply length_zero_iff_nil in H0. subst.
    exists []. rewrite app_nil_r. simpl. auto. }
  apply bind_Ret_inv in H. destruct H as ([x|] & F & H); inversion H; subst;
    [|discriminate]. clear H.
  apply for_each_Some in F. destruct F as (l1 & i & l2 & Hseq & F & _).
  apply for_each_Some in F. destruct F as (l1' & j & l2' & Hseq' & F & _).
  apply seq_split in Hseq, Hseq'. destruct Hseq as [Hi _], Hseq' as [Hj _].
  unfold candidate in F. apply bind_Ret_inv in F. destruct F as (p & Pp & F).
  apply bind_Ret_inv in F. destruct F as (pt' & R & F).
  destruct (possible pt') eqn:Hp'; inversion F; subst. clear F.
  apply newPairing_Ret in Pp. destruct Pp as (a & b & Ha & Hb & -> & Hane & Hbne & Hab).
  rewrite Ha, Hb in R.
  destruct (IH _ _ _ (without_NoDup _ Hnd) R Hp') as (added & Hcfg & Hperm & Hprop & Hord).
  exists (mkPairing (a, b) :: added). split; [|split; [|split]].
  - rewrite Hcfg, <- app_assoc. reflexivity.
  - change (members (mkPairing (a, b) :: added)) with (a :: b :: members added).
    apply Permutation_trans with (l' := a :: b :: without choices [Some a; Some b]).
    + repeat apply perm_skip. assumption.
    + apply without_Permutation; try assumption; eapply nth_error_In; eassumption.
  - constructor; [|assumption]. repeat split; assumption.
  - constructor.
    + apply (@nth_error_before choices i j a b); [lia | assumption | assumption].
    + eapply Forall_impl; [|exact Hord]. intros q Hq. eapply before_filter. exact Hq.
Qed.

Lemma members_length (r : Round) : (2 * length r = length (members r))%nat.
Proof.
  unfold members. induction r as [|p r IH]; [reflexivity|].
  cbn [flat_map length]. rewrite length_app. cbn [players_of length]. lia.
Qed.

(** X9.  When the search from an empty partial round succeeds on an array of
    choices without repeats, the round it returns pairs off exactly those
    choices: its players are the choices, each once, every pairing holds two
    different non-empty players, in the order of the array. *)
Theorem successful_search_pairs_off_the_choices (tc : TeamConfigurations)
    (choices : list string) (pt : PossibleTeam) :
  NoDup choices ->
  _createTeam tc [] choices = Ret pt -> possible pt = true ->
  Permutation (members (configuration pt)) choices /\
  (2 * length (configuration pt) = length choices)%nat /\
  Forall proper (configuration pt) /\
  Forall (in_order choices) (configuration pt).
Proof.
  intros Hnd H Hp.
  destruct (@createTeam_rec_partition _ tc [] choices pt Hnd H Hp) as (added & Hcfg & Hperm & Hprop & Hord).
  simpl in Hcfg. rewrite Hcfg. split; [assumption|]. split; [|split; assumption].
  apply Permutation_length in Hperm. rewrite <- Hperm. apply members_length.
Qed.

Lemma successful_search_pairs_off_the_choices_witness :
  Permutation (members [P "1" "3"; P "2" "4"; P "5" "7"; P "6" "8"]) tc1_players /\
  (2 * length [P "1" "3"; P "2" "4"; P "5" "7"; P "6" "8"] = length tc1_players)%nat /\
  Forall proper [P "1" "3"; P "2" "4"; P "5" "7"; P "6" "8"] /\
  Forall (in_order tc1_players) [P "1" "3"; P "2" "4"; P "5" "7"; P "6" "8"].
Proof.
  apply (@successful_search_pairs_off_the_choices after_round_1 tc1_players
           (mkPossibleTeam true [P "1" "3"; P "2" "4"; P "5" "7"; P "6" "8"])).
  - apply unique_length_NoDup. reflexivity.
  - vm_compute. reflexivity.
  - reflexivity.
Defined.

(** X10.  An odd number of choices cannot be paired off: on an array without
    repeats of odd length the search never reports success. *)
Theorem odd_choices_never_succeed (tc : TeamConfigurations) (choices : list string)
    (pt : PossibleTeam) :
  NoDup choices -> Nat.odd (length choices) = true ->
  _createTeam tc [] choices = Ret pt -> possible pt = false.
Proof.
  intros Hnd Hodd H. destruct (possible pt) eqn:Hp; [|reflexivity]. exfalso.
  destruct (@createTeam_rec_partition _ tc [] choices pt Hnd H Hp)
    as (added & _ & Hperm & _).
  apply Permutation_length in Hperm. rewrite <- Hperm, <- members_length in Hodd.
  rewrite Nat.odd_mul in Hodd. discriminate.
Qed.

Lemma odd_choices_never_succeed_witness :
  possible (mkPossibleTeam false []) = false.
Proof.
  apply (@odd_choices_never_succeed (init tc1_players) ["1"; "2"; "3"]
           (mkPossibleTeam false [])).
  - apply unique_length_NoDup. reflexivity.
  - reflexivity.
  - vm_compute. reflexivity.
Defined.

Lemma before_kept (f : string -> bool) (l : list string) (a b : string) :
  before l a b -> f a = true -> f b = true -> before (filter f l) a b.
Proof.
  intros (l1 & l2 & l3 & ->) Ha Hb.
  exists (filter f l1), (filter f l2), (filter f l3).
  rewrite filter_app. simpl. rewrite Ha, filter_app. simpl. rewrite Hb. reflexivity.
Qed.

Lemma members_In (r : Round) (p : Pairing) :
  In p r -> In (fst (value p)) (members r) /\ In (snd (value p)) (members r).
Proof.
  intros H. unfold members. split; apply in_flat_map; exists p;
    (split; [assumption | unfold players_of; simpl; tauto]).
Qed.

(** If the search gives up on [choices], no way of pairing them off passes
    the test: the search has been through every one. *)
Lemma createTeam_rec_exhaustive (fuel : nat) (tc : TeamConfigurations)
    (team : list Pairing) (choices : list string) (pt : PossibleTeam) :
  NoDup choices ->
  _createTeam_rec fuel tc team choices = Ret pt -> possible pt = false ->
  last_is_repeat tc team = Ret false ->
  forall round, Permutation (members round) choices ->
    Forall (in_order choices) round -> ~ Forall (unused tc) round.
Proof.
  revert team choices pt. induction fuel as [|n IH];
    intros team choices pt Hnd H Hp Hlast round Hperm Hord Hun; [discriminate|].
  simpl in H. rewrite Hlast in H. simpl in H.
  destruct (Nat.eqb_spec (length choices) 0) as [H0|H0].
  { inversion H; subst. discriminate. }
  apply bind_Ret_inv in H. destruct H as ([x|] & F & H); inversion H; subst; clear H.
  { apply for_each_Some in F. destruct F as (_ & i & _ & _ & F & _).
    apply for_each_Some in F. destruct F as (_ & j & _ & _ & F & _).
    unfold candidate in F. apply bind_Ret_inv in F. destruct F as (p & _ & F).
    apply bind_Ret_inv in F. destruct F as (pt' & _ & F).
    destruct (possible pt') eqn:E; inversion F; subst. congruence. }
  destruct round as [|[[a b]] rest].
  { apply Permutation_length in Hperm. simpl in Hperm. lia. }
  inversion Hord as [|? ? Hab Hord']; subst. inversion Hun as [|? ? Hu Hun']; subst.
  destruct Hab as (l1 & l2 & l3 & Hsplit). simpl in Hsplit.
  destruct (before_nth_error l1 l2 l3 a b) as [Ha Hb]. rewrite <- Hsplit in Ha, Hb.
  assert (Hlen : length choices = (length l1 + 1 + length l2 + 1 + length l3)%nat).
  { rewrite Hsplit. rewrite !length_app. simpl. rewrite length_app. simpl. lia. }
  pose proof (for_each_None _ _ F (length l1) ltac:(apply in_seq; lia)) as F1.
  pose proof (for_each_None _ _ F1 (length l1 + 1 + length l2)%nat
                ltac:(apply in_seq; lia)) as C.
  unfold candidate in C. rewrite Ha, Hb in C.
  apply bind_Ret_inv in C. destruct C as (p & Pp & C).
  apply bind_Ret_inv in C. destruct C as (pt' & R & C).
  destruct (possible pt') eqn:Hp'; [discriminate|].
  apply newPairing_Ret in Pp.
  destruct Pp as (a' & b' & Ea & Eb & -> & _ & _ & Hne).
  inversion Ea; inversion Eb; subst a' b'.
  assert (Hrest : Permutation (members rest) (without choices [Some a; Some b])).
  { apply Permutation_cons_inv with (a := b). apply Permutation_cons_inv with (a := a).
    eapply Permutation_trans; [exact Hperm|]. apply Permutation_sym.
    apply without_Permutation; try assumption; eapply nth_error_In; eassumption. }
  apply (IH _ _ _ (without_NoDup _ Hnd) R Hp') with (round := rest).
  - unfold last_is_repeat. rewrite last_of_app. exact Hu.
  - assumption.
  - apply Forall_forall. intros q Hq. rewrite Forall_forall in Hord'.
    destruct (members_In _ _ Hq) as [Hq1 Hq2].
    apply (Permutation_in _ Hrest) in Hq1, Hq2. apply filter_In in Hq1, Hq2.
    apply before_kept; [apply Hord'; assumption | tauto | tauto].
  - assumption.
Qed.

(** X11.  The search is exhaustive.  When the search from the empty partial
    round reports failure on an array of choices without repeats, every way
    of pairing off all the choices (each pairing in the order of the array)
    has a pairing that the matrix marks as used, or that makes the test
    throw. *)
Theorem failed_search_means_no_round (tc : TeamConfigurations)
    (choices : list string) (pt : PossibleTeam) :
  NoDup choices ->
  _createTeam tc [] choices = Ret pt -> possible pt = false ->
  forall round, Permutation (members round) choices ->
    Forall (in_order choices) round -> ~ Forall (unused tc) round.
Proof.
  intros Hnd H Hp. apply (@createTeam_rec_exhaustive _ tc [] choices pt Hnd H Hp).
  reflexivity.
Qed.

Lemma failed_search_means_no_round_witness :
  ~ Forall (unused stuck_tc) [P "1" "2"; P "3" "4"; P "5" "6"; P "7" "8"].
Proof.
  apply (@failed_search_means_no_round stuck_tc tc1_players (mkPossibleTeam false [])).
  - apply unique_length_NoDup. reflexivity.
  - vm_compute. reflexivity.
  - reflexivity.
  - apply Permutation_by_test; reflexivity.
  - repeat constructor.
    + exists [], [], ["3"; "4"; "5"; "6"; "7"; "8"]. reflexivity.
    + exists ["1"; "2"], [], ["5"; "6"; "7"; "8"]. reflexivity.
    + exists ["1"; "2"; "3"; "4"], [], ["7"; "8"]. reflexivity.
    + exists ["1"; "2"; "3"; "4"; "5"; "6"], [], []. reflexivity.
Defined.

(* ================================================================== *)
(** ** What the completion predicate says of the matrix *)

Lemma fold_left_add_acc (l : list Z) (a : Z) :
  fold_left Z.add l a = a + fold_left Z.add l 0.
Proof.
  revert a. induction l as [|x l IH]; intros a; simpl; [lia|].
  rewrite (IH (a + x)), (IH x). lia.
Qed.

Lemma row_sum_cons (x : Z) (l : list Z) : row_sum (x :: l) = x + row_sum l.
Proof. unfold row_sum. simpl. apply fold_left_add_acc. Qed.

Lemma row_sum_app (l1 l2 : list Z) : row_sum (l1 ++ l2) = row_sum l1 + row_sum l2.
Proof.
  induction l1 as [|x l1 IH]; simpl; [reflexivity|].
  rewrite !row_sum_cons, IH. lia.
Qed.

Lemma row_sum_bounds (l : list Z) :
  Forall (fun v => v = 0 \/ v = 1) l -> 0 <= row_sum l <= Z.of_nat (length l).
Proof.
  induction 1 as [|x l Hx _ IH]; [unfold row_sum; simpl; lia|].
  rewrite row_sum_cons. simpl length. lia.
Qed.

Lemma row_sum_full (l : list Z) :
  Forall (fun v => v = 0 \/ v = 1) l ->
  (row_sum l = Z.of_nat (length l) <-> Forall (fun v => v = 1) l).
Proof.
  induction 1 as [|x l Hx Hl IH]; [split; [constructor | reflexivity]|].
  rewrite row_sum_cons. pose proof (row_sum_bounds Hl) as Hb. simpl length. split.
  - intros H. constructor; [lia|]. apply IH. lia.
  - intros H. inversion H; subst. apply IH in H3. lia.
Qed.

(** A row of zeros and ones with a zero at [i] sums to its length less one
    exactly when all its other entries are ones. *)
Lemma row_sum_all_but_one (row : list Z) (i : nat) :
  Forall (fun v => v = 0 \/ v = 1) row -> nth_error row i = Some 0 ->
  (row_sum row = Z.of_nat (length row) - 1 <->
   forall j v, j <> i -> nth_error row j = Some v -> v = 1).
Proof.
  intros Hbin Hi. apply nth_error_split in Hi. destruct Hi as (l1 & l2 & -> & Hlen).
  apply Forall_app in Hbin. destruct Hbin as [Hb1 Hb2].
  inversion Hb2 as [|? ? _ Hb2']; subst.
  rewrite row_sum_app, row_sum_cons, length_app. simpl length.
  pose proof (row_sum_bounds Hb1) as B1. pose proof (row_sum_bounds Hb2') as B2.
  pose proof (row_sum_full Hb1) as F1. pose proof (row_sum_full Hb2') as F2. split.
  - intros H j v Hj Hv.
    assert (H1 : Forall (fun v => v = 1) l1) by (apply F1; lia).
    assert (H2 : Forall (fun v => v = 1) l2) by (apply F2; lia).
    rewrite Forall_forall in H1, H2.
    destruct (Nat.lt_ge_cases j (length l1)) as [Hlt|Hge].
    + rewrite nth_error_app1 in Hv by assumption. apply H1. eapply nth_error_In; eassumption.
    + rewrite nth_error_app2 in Hv by assumption.
      destruct (j - length l1)%nat as [|k] eqn:E; [lia|]. simpl in Hv.
      apply H2. eapply nth_error_In; eassumption.
  - intros H.
    assert (H1 : Forall (fun v => v = 1) l1).
    { apply Forall_forall. intros v Hv. apply In_nth_error in Hv. destruct Hv as (j & Hj).
      assert (j < length l1)%nat by (apply nth_error_Some; congruence).
      apply (H j v); [lia|]. rewrite nth_error_app1; assumption. }
    assert (H2 : Forall (fun v => v = 1) l2).
    { apply Forall_forall. intros v Hv. apply In_nth_error in Hv. destruct Hv as (j & Hj).
      apply (H (length l1 + S j)%nat v); [lia|].
      rewrite nth_error_app2 by lia.
      replace (length l1 + S j - length l1)%nat with (S j) by lia. exact Hj. }
    apply F1 in H1. apply F2 in H2. lia.
Qed.

Lemma allTeamsGenerated_spec (tc : TeamConfigurations) :
  square (length (players tc)) (memo tc) -> binary (memo tc) ->
  zero_diagonal (memo tc) ->
  (_allTeamsGenerated tc = true <->
   forall i j, (i < length (players tc))%nat -> (j < length (players tc))%nat ->
     i <> j -> memo_used (memo tc) (Z.of_nat i) (Z.of_nat j) = Ret true).
Proof.
  intros Hsq Hbin Hdiag. unfold _allTeamsGenerated. rewrite forallb_forall.
  assert (Hrow : forall i row, nth_error (memo tc) i = Some row ->
            (i < length (players tc))%nat /\ length row = length (players tc) /\
            Forall (fun v => v = 0 \/ v = 1) row /\ nth_error row i = Some 0).
  { intros i row Hi. pose proof (nth_error_In _ _ Hi) as Hin.
    assert (Hlt : (i < length (memo tc))%nat) by (apply nth_error_Some; congruence).
    destruct Hsq as [Hm Hrows]. rewrite Forall_forall in Hrows.
    unfold binary in Hbin. rewrite Forall_forall in Hbin.
    split; [lia|]. split; [auto|]. split; [auto|].
    specialize (Hdiag i Hlt). unfold memo_used in Hdiag. rewrite get_nat, Hi, get_nat in Hdiag.
    destruct (nth_error row i) as [v|] eqn:Hv.
    - inversion Hdiag as [E]. destruct (Z.eqb_spec v 0); [congruence | discriminate].
    - apply nth_error_None in Hv. rewrite (Hrows row Hin) in Hv. lia. }
  split.
  - intros H i j Hi Hj Hij.
    destruct (square_row Hsq Hi) as (row & Hr & Hlen).
    destruct (Hrow i row Hr) as (_ & _ & Hb & Hz).
    specialize (H row (nth_error_In _ _ Hr)). apply Z.eqb_eq in H. rewrite <- Hlen in H.
    destruct (nth_error row j) as [v|] eqn:Hv;
      [|apply nth_error_None in Hv; lia].
    rewrite (@memo_used_nat _ _ _ _ _ Hr Hv).
    rewrite (proj1 (@row_sum_all_but_one row i Hb Hz) H j v) by auto. reflexivity.
  - intros H row Hin. apply In_nth_error in Hin. destruct Hin as (i & Hr).
    destruct (Hrow i row Hr) as (Hi & Hlen & Hb & Hz).
    apply Z.eqb_eq. rewrite <- Hlen. apply (@row_sum_all_but_one row i Hb Hz).
    intros j v Hj Hv.
    assert (Hjlt : (j < length (players tc))%nat).
    { rewrite <- Hlen. apply nth_error_Some. congruence. }
    specialize (H i j Hi Hjlt ltac:(auto)). rewrite (@memo_used_nat _ _ _ _ _ Hr Hv) in H.
    inversion H as [E]. rewrite Forall_forall in Hb.
    destruct (Hb v (nth_error_In _ _ Hv)) as [->| ->]; [discriminate | reflexivity].
Qed.

(** X12.  On a square matrix of zeros and ones whose diagonal is zero,
    [_allTeamsGenerated()] is true exactly when every entry off the diagonal
    is marked: every player has been paired with every other. *)
Theorem allTeamsGenerated_iff_all_pairs_marked (tc : TeamConfigurations) :
  square (length (players tc)) (memo tc) -> binary (memo tc) ->
  zero_diagonal (memo tc) ->
  (_allTeamsGenerated tc = true <->
   forall i j, (i < length (players tc))%nat -> (j < length (players tc))%nat ->
     i <> j -> memo_used (memo tc) (Z.of_nat i) (Z.of_nat j) = Ret true).
Proof. exact (@allTeamsGenerated_spec tc). Qed.

Lemma allTeamsGenerated_iff_all_pairs_marked_witness :
  _allTeamsGenerated tc1_final = true <->
  forall i j, (i < length (players tc1_final))%nat ->
    (j < length (players tc1_final))%nat -> i <> j ->
    memo_used (memo tc1_final) (Z.of_nat i) (Z.of_nat j) = Ret true.
Proof.
  apply (@allTeamsGenerated_iff_all_pairs_marked tc1_final).
  - split; [reflexivity|]. apply Forall_forall. intros row Hrow.
    simpl in Hrow. repeat (destruct Hrow as [<-|Hrow]; [reflexivity|]). contradiction.
  - apply Forall_forall. intros row Hrow. apply Forall_forall. intros v Hv.
    simpl in Hrow. repeat (destruct Hrow as [<-|Hrow]; [simpl in Hv; lia|]). contradiction.
  - intros i Hi. simpl in Hi.
    do 8 (destruct i as [|i]; [reflexivity|]). lia.
Defined.

(* ================================================================== *)
(** ** What [createTeams] keeps true of the object *)

Lemma set_nat_binary (row : list Z) (j : nat) :
  Forall (fun v => v = 0 \/ v = 1) row -> Forall (fun v => v = 0 \/ v = 1) (set_nat row j 1).
Proof.
  revert row. induction j as [|j IH]; intros row H.
  - destruct row; simpl; constructor; auto. inversion H; assumption.
  - destruct row as [|x row]; simpl.
    + constructor; [auto|]. apply IH. constructor.
    + inversion H; subst. constructor; auto.
Qed.

Lemma memo_mark_binary (m m' : list (list Z)) (i j : Z) :
  binary m -> memo_mark m i j = Ret m' -> binary m'.
Proof.
  unfold memo_mark, binary. intros Hb H.
  destruct (get m i) as [row|] eqn:Hrow; [|discriminate]. inversion H; subst.
  apply Forall_replace; [assumption|].
  assert (Hr : Forall (fun v => v = 0 \/ v = 1) row).
  { unfold get in Hrow. destruct (i <? 0); [discriminate|].
    rewrite Forall_forall in Hb. apply Hb. eapply nth_error_In. eassumption. }
  unfold set. destruct (j <? 0); [assumption|]. apply set_nat_binary. assumption.
Qed.

Lemma updateMemo_loop_binary (ps : list string) (vt : list Pairing) :
  forall m m', binary m -> updateMemo_loop ps m vt = Ret m' -> binary m'.
Proof.
  induction vt as [|p vt IH]; intros m m' Hb H; simpl in H.
  - inversion H; subst. assumption.
  - apply bind_Ret_inv in H. destruct H as (m1 & H1 & H).
    apply bind_Ret_inv in H. destruct H as (m2 & H2 & H).
    eapply IH; [|exact H]. eapply memo_mark_binary; [|exact H2].
    eapply memo_mark_binary; [|exact H1]. assumption.
Qed.

Lemma indexOf_of_nth (ps : list string) (i : nat) (a : string) :
  NoDup ps -> nth_error ps i = Some a -> indexOf ps a = Z.of_nat i.
Proof.
  intros Hnd Hi. destruct (indexOf_nth_error ps a (nth_error_In _ _ Hi)) as (k & Hk & Hlt & Hnth).
  rewrite Hk. f_equal. rewrite NoDup_nth_error in Hnd. apply Hnd; [assumption|].
  rewrite Hnth, Hi. reflexivity.
Qed.

Lemma existsb_filter_length {A : Type} (f : A -> bool) (l : list A) :
  existsb f l = true -> (1 <= length (filter f l))%nat.
Proof.
  induction l as [|x l IH]; simpl; [discriminate|].
  destruct (f x); simpl; [lia | assumption].
Qed.

Lemma filter_existsb_false {A : Type} (f : A -> bool) (l : list A) :
  existsb f l = false -> filter f l = [].
Proof.
  induction l as [|x l IH]; simpl; [reflexivity|].
  destruct (f x); simpl; [discriminate | assumption].
Qed.

(** Pairings that [equals] each other occur in the same rounds. *)
Lemma occurs_in_equals (a b : string) (p : Pairing) (r : Round) :
  equals (P a b) p = true -> occurs_in a b r = occurs_in (fst (value p)) (snd (value p)) r.
Proof.
  intros H. unfold occurs_in. induction r as [|q r IH]; simpl; [reflexivity|].
  rewrite IH. f_equal. apply eq_true_iff_eq.
  rewrite equals_spec in H. rewrite !equals_spec.
  assert (E : forall x, In x (players_of (P a b))
                        <-> In x (players_of (P (fst (value p)) (snd (value p))))).
  { intros x. rewrite H. destruct p as [[c d]]. reflexivity. }
  split; intros G x; [rewrite <- E | rewrite E]; apply G.
Qed.

(** No pairing of two different players [equals] the pairing of a player
    with themselves. *)
Lemma proper_not_self (a : string) (p : Pairing) : proper p -> equals (P a a) p = false.
Proof.
  intros (_ & _ & Hne). destruct (equals (P a a) p) eqn:E; [|reflexivity]. exfalso.
  rewrite equals_spec in E. apply Hne.
  pose proof (proj2 (E (fst (value p))) (or_introl eq_refl)) as H1.
  pose proof (proj2 (E (snd (value p))) (or_intror (or_introl eq_refl))) as H2.
  unfold players_of, P in H1, H2. simpl in H1, H2. intuition congruence.
Qed.

(** A successful search from the empty partial round returns pairings that
    all pass the test of the matrix. *)
Lemma search_result_unused (tc : TeamConfigurations) (pt : PossibleTeam) :
  _createTeam tc [] (players tc) = Ret pt -> possible pt = true ->
  Forall (unused tc) (configuration pt).
Proof.
  intros H Hp.
  destruct (@createTeam_rec_invoked _ tc [] (players tc) pt (invoked_top tc) H Hp)
    as [Hinv Hlast].
  apply checked_last; [|assumption]. eapply invoked_checked. eassumption.
Qed.

Lemma init_consistent (ps : list string) : NoDup ps -> consistent (init ps).
Proof.
  intros Hnd. unfold consistent, init. cbn [players memo teams].
  split; [assumption|]. split; [|split; [|split; [|split]]].
  - split; [apply repeat_length|]. apply Forall_forall. intros row Hrow.
    apply repeat_spec in Hrow. subst. apply repeat_length.
  - apply Forall_forall. intros row Hrow. apply repeat_spec in Hrow. subst.
    apply Forall_forall. intros v Hv. apply repeat_spec in Hv. auto.
  - intros a b Ha Hb. cbn [players memo teams existsb].
    destruct (indexOf_nth_error ps a Ha) as (i & -> & Hi & _).
    destruct (indexOf_nth_error ps b Hb) as (j & -> & Hj & _).
    apply (@memo_used_nat _ i j (repeat 0 (length ps)) 0);
      apply nth_error_repeat; assumption.
  - constructor.
  - intros a b _ _. simpl. lia.
Qed.

(** One iteration of the loop keeps the object consistent, and either leaves
    it alone or appends one round. *)
Lemma createTeams_body_consistent (tc tc' : TeamConfigurations) :
  consistent tc -> createTeams_body tc = Ret tc' ->
  consistent tc' /\ players tc' = players tc /\
  (teams tc' = teams tc \/ exists r, teams tc' = teams tc ++ [r]).
Proof.
  intros (Hnd & Hsq & Hbin & Hstep & Hrounds & Honce) H.
  unfold createTeams_body in H. apply bind_Ret_inv in H. destruct H as (pt & Hs & H).
  destruct (possible pt) eqn:Hp.
  2:{ inversion H; subst. unfold consistent. auto 10. }
  destruct (@createTeam_rec_partition _ tc [] (players tc) pt Hnd Hs Hp)
    as (added & Hcfg & Hperm & Hprop & _).
  simpl in Hcfg. rewrite <- Hcfg in Hperm, Hprop. clear added Hcfg.
  pose proof (search_result_unused _ Hs Hp) as Hun.
  assert (Hin : Forall (pairing_in (players tc)) (configuration pt)).
  { apply Forall_forall. intros p Hp'. destruct (members_In _ _ Hp') as [H1 H2].
    split; eapply Permutation_in; eassumption. }
  set (tc0 := mkTC (teams tc ++ [configuration pt]) (players tc) (memo tc)) in *.
  destruct (@updateMemo_marks tc0 (configuration pt) Hsq Hin)
    as (tc'' & Hup & Ht & Hps & Hsq' & Hread).
  rewrite Hup in H. inversion H; subst tc''. clear H.
  cbn [players teams memo tc0] in *.
  split; [|split; [assumption | right; eexists; exact Ht]].
  unfold consistent. rewrite Hps, Ht.
  split; [assumption|]. split; [assumption|]. split; [|split; [|split]].
  - unfold _updateMemo in Hup. apply bind_Ret_inv in Hup. destruct Hup as (m' & Hm' & E).
    inversion E; subst. cbn [memo]. eapply updateMemo_loop_binary; eassumption.
  - intros a b Ha Hb. rewrite Hps in Ha, Hb |- *. rewrite Ht.
    destruct (Hread a b Ha Hb) as (u & Hu & ->).
    rewrite (Hstep a b Ha Hb) in Hu. inversion Hu; subst u.
    rewrite existsb_app. simpl. rewrite orb_false_r. reflexivity.
  - apply Forall_app. split; [assumption|]. constructor; [|constructor].
    split; assumption.
  - intros a b Ha Hb. unfold rounds_with. rewrite filter_app, length_app. simpl.
    destruct (occurs_in a b (configuration pt)) eqn:E; simpl.
    + unfold occurs_in in E. apply existsb_exists in E. destruct E as (p & Hp' & E).
      rewrite Forall_forall in Hun, Hin. specialize (Hun p Hp'). destruct (Hin p Hp') as [H1 H2].
      unfold unused in Hun. rewrite (Hstep _ _ H1 H2) in Hun. inversion Hun as [E'].
      assert (G : existsb (occurs_in a b) (teams tc) = false).
      { rewrite <- E'. clear - E. induction (teams tc) as [|r rs IH]; simpl; [reflexivity|].
        rewrite IH, (occurs_in_equals _ _ _ r E). reflexivity. }
      rewrite (filter_existsb_false _ _ G). simpl. lia.
    + specialize (Honce a b Ha Hb). unfold rounds_with in Honce. lia.
Qed.

Lemma createTeams_loop_consistent (fuel : nat) (tc tc' : TeamConfigurations) :
  consistent tc -> createTeams_loop fuel tc = Ret tc' ->
  consistent tc' /\ players tc' = players tc /\
  (exists new, teams tc' = teams tc ++ new) /\
  _allTeamsGenerated tc' = true.
Proof.
  assert (Hdone : forall t, consistent t -> _allTeamsGenerated t = true ->
            consistent t /\ players t = players t /\
            (exists new, teams t = teams t ++ new) /\ _allTeamsGenerated t = true).
  { intros t Ht Hg. split; [assumption|]. split; [reflexivity|]. split; [|assumption].
    exists []. rewrite app_nil_r. reflexivity. }
  revert tc. induction fuel as [|n IH]; intros tc Hc H; simpl in H;
    destruct (_allTeamsGenerated tc) eqn:Hg; try discriminate;
    try (inversion H; subst; apply Hdone; assumption).
  apply bind_Ret_inv in H. destruct H as (t & Hb & H).
  destruct (createTeams_body_consistent Hc Hb) as (Hc' & Hp & Ht).
  destruct (IH _ Hc' H) as (Hc'' & Hp' & (new & Hnew) & Hg').
  split; [assumption|]. split; [congruence|]. split; [|assumption].
  destruct Ht as [Ht|(r & Ht)]; rewrite Hnew, Ht.
  - exists new. reflexivity.
  - exists (r :: new). rewrite <- app_assoc. reflexivity.
Qed.

Lemma consistent_zero_diagonal (tc : TeamConfigurations) :
  consistent tc -> zero_diagonal (memo tc).
Proof.
  intros (Hnd & Hsq & _ & Hstep & Hrounds & _) i Hi.
  destruct Hsq as [Hlen _]. rewrite Hlen in Hi.
  destruct (nth_error (players tc) i) as [a|] eqn:Ha;
    [|apply nth_error_None in Ha; lia].
  pose proof (nth_error_In _ _ Ha) as Hin.
  rewrite <- (indexOf_of_nth _ Hnd Ha), (Hstep a a Hin Hin). f_equal.
  induction Hrounds as [|r rs [_ Hr] _ IH]; simpl; [reflexivity|].
  rewrite IH, orb_false_r. unfold occurs_in.
  induction Hr as [|p r Hp _ IHr]; simpl; [reflexivity|].
  rewrite IHr, (proper_not_self a Hp). reflexivity.
Qed.

(** When the completion predicate holds of a consistent object, every two
    different players of the roster are paired in exactly one round. *)
Lemma complete_consistent_once (tc : TeamConfigurations) :
  consistent tc -> _allTeamsGenerated tc = true ->
  forall a b, In a (players tc) -> In b (players tc) -> a <> b ->
    length (rounds_with a b (teams tc)) = 1%nat.
Proof.
  intros Hc Hg a b Ha Hb Hab.
  pose proof (consistent_zero_diagonal Hc) as Hdiag.
  destruct Hc as (Hnd & Hsq & Hbin & Hstep & Hrounds & Honce).
  destruct (indexOf_nth_error _ _ Ha) as (i & Hia & Hi & Hna).
  destruct (indexOf_nth_error _ _ Hb) as (j & Hjb & Hj & Hnb).
  assert (Hij : i <> j) by (intros ->; congruence).
  pose proof (proj1 (@allTeamsGenerated_spec tc Hsq Hbin Hdiag) Hg i j Hi Hj Hij) as Hm.
  rewrite <- Hia, <- Hjb, (Hstep a b Ha Hb) in Hm. inversion Hm as [E].
  apply existsb_filter_length in E. specialize (Honce a b Ha Hb).
  unfold rounds_with in *. lia.
Qed.

(** X13.  [createTeams] keeps a consistent object consistent: when it
    returns, the roster is the same, the rounds that were there are still
    there with new ones appended after them, the matrix is in step with the
    schedule returned, and the completion predicate holds. *)
Theorem createTeams_keeps_the_object_consistent (fuel : nat)
    (tc tc' : TeamConfigurations) (s : list Round) :
  consistent tc -> createTeams fuel tc = Ret (tc', s) ->
  consistent tc' /\ s = teams tc' /\ players tc' = players tc /\
  (exists new, s = teams tc ++ new) /\
  _allTeamsGenerated tc' = true.
Proof.
  intros Hc H. unfold createTeams in H. apply bind_Ret_inv in H.
  destruct H as (t & Hl & E). inversion E; subst t s. clear E.
  destruct (createTeams_loop_consistent _ Hc Hl) as (Hc' & Hp & Hnew & Hg). auto.
Qed.

Lemma createTeams_keeps_the_object_consistent_witness :
  consistent tc1_final /\ tc1_schedule = teams tc1_final /\
  players tc1_final = players (init tc1_players) /\
  (exists new, tc1_schedule = teams (init tc1_players) ++ new) /\
  _allTeamsGenerated tc1_final = true.
Proof.
  apply (@createTeams_keeps_the_object_consistent 7 (init tc1_players)).
  - apply init_consistent. apply unique_length_NoDup. reflexivity.
  - vm_compute. reflexivity.
Defined.

(** X14.  Whatever the size of the roster: when [createTeams] returns on a
    consistent object (a fresh one is), every round of the schedule pairs off
    the whole roster and every two different players are paired in exactly one
    round. *)
Theorem returned_schedule_pairs_everyone_exactly_once (fuel : nat)
    (tc tc' : TeamConfigurations) (s : list Round) :
  consistent tc -> createTeams fuel tc = Ret (tc', s) ->
  Forall (valid_round (players tc)) s /\
  forall a b, In a (players tc) -> In b (players tc) -> a <> b ->
    length (rounds_with a b s) = 1%nat.
Proof.
  intros Hc H. unfold createTeams in H. apply bind_Ret_inv in H.
  destruct H as (t & Hl & E). inversion E; subst t s. clear E.
  destruct (createTeams_loop_consistent _ Hc Hl) as (Hc' & Hp & _ & Hg).
  rewrite <- Hp. split.
  - destruct Hc' as (_ & _ & _ & _ & Hr & _). assumption.
  - apply complete_consistent_once; assumption.
Qed.

Lemma returned_schedule_pairs_everyone_exactly_once_witness :
  Forall (valid_round ["a"; "b"; "c"; "d"])
         [[P "a" "b"; P "c" "d"]; [P "a" "c"; P "b" "d"]; [P "a" "d"; P "b" "c"]] /\
  forall a b, In a ["a"; "b"; "c"; "d"] -> In b ["a"; "b"; "c"; "d"] -> a <> b ->
    length (rounds_with a b
              [[P "a" "b"; P "c" "d"]; [P "a" "c"; P "b" "d"]; [P "a" "d"; P "b" "c"]])
    = 1%nat.
Proof.
  refine (@returned_schedule_pairs_everyone_exactly_once 3 (init ["a"; "b"; "c"; "d"])
            (mkTC [[P "a" "b"; P "c" "d"]; [P "a" "c"; P "b" "d"]; [P "a" "d"; P "b" "c"]]
                  ["a"; "b"; "c"; "d"] (full_memo 4)) _ _ _).
  - apply init_consistent. apply unique_length_NoDup. reflexivity.
  - vm_compute. reflexivity.
Defined.

(* ================================================================== *)
(** ** [printMatchUps] *)

Lemma round_message_Ret (r : Round) :
  (4 <= length r)%nat -> exists msg, round_message r = Ret msg.
Proof.
  intros H. unfold round_message.
  destruct r as [|p0 [|p1 [|p2 [|p3 r]]]]; simpl in H; try lia.
  simpl. eauto.
Qed.

Lemma round_message_Threw (r : Round) :
  (length r < 4)%nat -> round_message r = Threw TypeError.
Proof.
  intros H. unfold round_message.
  destruct r as [|p0 [|p1 [|p2 [|p3 r]]]]; simpl in H; try lia; reflexivity.
Qed.

Lemma printMatchUps_from_ok (rounds : list Round) :
  Forall (fun r => (4 <= length r)%nat) rounds ->
  forall m, exists log,
    printMatchUps_from m rounds = (log, Ret tt) /\
    length log = (2 * length rounds)%nat /\
    forall k r, nth_error rounds k = Some r ->
      nth_error log (2 * k) = Some ("Round " ++ decimal (m + k + 1))%string /\
      exists msg, round_message r = Ret msg /\ nth_error log (2 * k + 1) = Some msg.
Proof.
  induction 1 as [|r rounds Hr _ IH]; intros m.
  - exists []. split; [reflexivity|]. split; [reflexivity|].
    intros k r Hk. destruct k; discriminate.
  - destruct (round_message_Ret r Hr) as (msg & Hmsg).
    destruct (IH (S m)) as (log & Hlog & Hlen & Hnth).
    exists (("Round " ++ decimal (m + 1))%string :: msg :: log).
    split; [simpl; rewrite Hmsg, Hlog; reflexivity|].
    split; [simpl; lia|].
    intros k r' Hk. destruct k as [|k].
    + simpl in Hk. inversion Hk; subst r'. rewrite Nat.add_0_r. simpl. eauto.
    + simpl in Hk. destruct (Hnth k r' Hk) as (Hh & msg' & Hm' & Hn').
      replace (2 * S k)%nat with (S (S (2 * k))) by lia.
      replace (S (S (2 * k)) + 1)%nat with (S (S (2 * k + 1))) by lia.
      simpl. replace (m + S k + 1)%nat with (S m + k + 1)%nat by lia.
      replace (k + (k + 0))%nat with (2 * k)%nat by lia.
      split; [exact Hh|]. exists msg'. split; [exact Hm' | exact Hn'].
Qed.

(** X15.  When every round of [teams] has at least four pairings,
    [printMatchUps] ends normally having logged two messages per round, in
    order: "Round k" (rounds counted from 1) and then the two tables of that
    round. *)
Theorem printMatchUps_logs_two_messages_per_round (tc : TeamConfigurations) :
  Forall (fun r => (4 <= length r)%nat) (teams tc) ->
  exists log,
    printMatchUps tc = (log, Ret tt) /\
    length log = (2 * length (teams tc))%nat /\
    forall k r, nth_error (teams tc) k = Some r ->
      nth_error log (2 * k) = Some ("Round " ++ decimal (k + 1))%string /\
      exists msg, round_message r = Ret msg /\ nth_error log (2 * k + 1) = Some msg.
Proof.
  intros H. destruct (@printMatchUps_from_ok _ H 0) as (log & Hlog & Hlen & Hnth).
  exists log. auto.
Qed.

Lemma printMatchUps_logs_two_messages_per_round_witness :
  exists log,
    printMatchUps tc1_final = (log, Ret tt) /\
    length log = (2 * length (teams tc1_final))%nat /\
    forall k r, nth_error (teams tc1_final) k = Some r ->
      nth_error log (2 * k) = Some ("Round " ++ decimal (k + 1))%string /\
      exists msg, round_message r = Ret msg /\ nth_error log (2 * k + 1) = Some msg.
Proof.
  apply (@printMatchUps_logs_two_messages_per_round tc1_final).
  apply Forall_forall. intros r Hr. simpl in Hr.
  repeat (destruct Hr as [<-|Hr]; [simpl; lia|]). contradiction.
Defined.

Lemma last_of_cons {A : Type} (a x : A) (l : list A) :
  last_of l = Some x -> last_of (a :: l) = Some x.
Proof.
  unfold last_of. simpl. destruct (rev l); [discriminate|]. simpl. auto.
Qed.

Lemma printMatchUps_from_short (printed : list Round) (r : Round) (rest : list Round) :
  Forall (fun r => (4 <= length r)%nat) printed -> (length r < 4)%nat ->
  forall m, exists log,
    printMatchUps_from m (printed ++ r :: rest) = (log, Threw TypeError) /\
    length log = (2 * length printed + 1)%nat /\
    last_of log = Some ("Round " ++ decimal (m + length printed + 1))%string.
Proof.
  intros Hb Hr. induction Hb as [|r0 printed Hr0 _ IH]; intros m.
  - exists [("Round " ++ decimal (m + 1))%string]. simpl.
    rewrite (round_message_Threw r Hr), Nat.add_0_r. auto.
  - destruct (round_message_Ret r0 Hr0) as (msg & Hmsg).
    destruct (IH (S m)) as (log & Hlog & Hlen & Hlast).
    exists (("Round " ++ decimal (m + 1))%string :: msg :: log).
    split; [simpl; rewrite Hmsg, Hlog; reflexivity|].
    split; [simpl; lia|].
    do 2 apply last_of_cons. rewrite Hlast. do 3 f_equal. simpl. lia.
Qed.

(** X16.  When a round of [teams] has fewer than four pairings,
    [printMatchUps] throws a [TypeError] at the first such round, after
    logging the two messages of each round before it and the "Round k" line of
    that round. *)
Theorem printMatchUps_throws_at_short_round (tc : TeamConfigurations)
    (printed : list Round) (r : Round) (rest : list Round) :
  teams tc = printed ++ r :: rest ->
  Forall (fun r => (4 <= length r)%nat) printed -> (length r < 4)%nat ->
  exists log,
    printMatchUps tc = (log, Threw TypeError) /\
    length log = (2 * length printed + 1)%nat /\
    last_of log = Some ("Round " ++ decimal (length printed + 1))%string.
Proof.
  intros Ht Hb Hr. unfold printMatchUps. rewrite Ht.
  destruct (@printMatchUps_from_short printed r rest Hb Hr 0) as (log & H1 & H2 & H3).
  exists log. auto.
Qed.

Lemma printMatchUps_throws_at_short_round_witness :
  exists log,
    printMatchUps (mkTC [[P "1" "2"; P "3" "4"; P "5" "6"; P "7" "8"];
                         [P "1" "3"; P "2" "4"]] tc1_players (full_memo 8))
    = (log, Threw TypeError) /\
    length log = 3%nat /\
    last_of log = Some "Round 2".
Proof.
  apply (@printMatchUps_throws_at_short_round
           (mkTC [[P "1" "2"; P "3" "4"; P "5" "6"; P "7" "8"];
                  [P "1" "3"; P "2" "4"]] tc1_players (full_memo 8))
           [[P "1" "2"; P "3" "4"; P "5" "6"; P "7" "8"]] [P "1" "3"; P "2" "4"] []).
  - reflexivity.
  - constructor; [simpl; lia | constructor].
  - simpl. lia.
Defined.

(** X17.  [createTeams] then [printMatchUps], as at the end of [main.js]:
    on a roster of eight distinct identifiers, once [createTeams] has
    returned, [printMatchUps] ends normally and has logged fourteen
    messages. *)
Theorem printMatchUps_after_createTeams (ps : list string) (fuel : nat)
    (tc' : TeamConfigurations) (s : list Round) :
  length ps = 8%nat -> NoDup ps -> run fuel ps = Ret (tc', s) ->
  exists log, printMatchUps tc' = (log, Ret tt) /\ length log = 14%nat.
Proof.
  intros Hlen Hnd Hrun.
  destruct (@run_returns _ _ _ Hlen Hnd Hrun) as (_ & f & _ & _ & E).
  inversion E; subst tc' s. clear E.
  assert (H : Forall (fun r => (4 <= length r)%nat) (teams (rename_tc f tc1_final))).
  { unfold rename_tc. cbn [teams tc1_final]. apply Forall_forall. intros r Hr.
    apply in_map_iff in Hr. destruct Hr as (r0 & <- & Hr0). rewrite length_map.
    simpl in Hr0. repeat (destruct Hr0 as [<-|Hr0]; [simpl; lia|]). contradiction. }
  destruct (@printMatchUps_from_ok _ H 0) as (log & Hlog & Hl & _).
  exists log. split; [exact Hlog|]. rewrite Hl. unfold rename_tc. cbn [teams tc1_final].
  rewrite length_map. reflexivity.
Qed.

Lemma printMatchUps_after_createTeams_witness :
  exists log, printMatchUps tc1_final = (log, Ret tt) /\ length log = 14%nat.
Proof.
  apply (@printMatchUps_after_createTeams tc1_players 7 tc1_final tc1_schedule).
  - reflexivity.
  - apply unique_length_NoDup. reflexivity.
  - vm_compute. reflexivity.
Defined.

(* ================================================================== *)
(** ** More on construction *)

(** X18.  The constructor checks for duplicates first: a roster with a
    repeated identifier gets the uniqueness error whatever its size; a roster
    without repeats whose size is not eight gets the size error, with the
    size given; and the object of a successful construction has no rounds,
    is consistent and is not complete, so that [createTeams] has work to
    do. *)
Theorem constructor_checks_duplicates_first (ps : list string) :
  (~ NoDup ps -> constructor ps = Threw UniqueError) /\
  (NoDup ps -> length ps <> 8%nat -> constructor ps = Threw (SizeError (length ps))) /\
  (forall tc, constructor ps = Ret tc ->
     tc = init ps /\ teams tc = [] /\ players tc = ps /\
     consistent tc /\ _allTeamsGenerated tc = false).
Proof.
  unfold constructor.
  destruct (Nat.eqb_spec (length (unique ps)) (length ps)) as [Hu|Hu]; simpl.
  - apply unique_length_NoDup in Hu.
    destruct (Nat.eqb_spec (length ps) 8) as [H8|H8]; simpl.
    + split; [contradiction|]. split; [contradiction|].
      intros tc H. inversion H; subst tc. fold (init ps).
      split; [reflexivity|]. split; [reflexivity|]. split; [reflexivity|].
      split; [apply init_consistent; assumption|].
      unfold _allTeamsGenerated, init. cbn [players memo]. rewrite H8. reflexivity.
    + split; [contradiction|]. split; [reflexivity|]. discriminate.
  - split; [reflexivity|]. split; [|discriminate].
    intros Hnd. apply unique_length_NoDup in Hnd. contradiction.
Qed.

Lemma constructor_checks_duplicates_first_witness :
  constructor ["1"; "2"; "1"] = Threw UniqueError /\
  constructor ["1"; "2"; "3"] = Threw (SizeError 3) /\
  consistent (init tc1_players) /\ _allTeamsGenerated (init tc1_players) = false.
Proof.
  split; [|split].
  - apply (proj1 (constructor_checks_duplicates_first ["1"; "2"; "1"])).
    intros H. apply unique_length_NoDup in H. discriminate.
  - apply (proj1 (proj2 (constructor_checks_duplicates_first ["1"; "2"; "3"]))).
    + apply unique_length_NoDup. reflexivity.
    + discriminate.
  - apply (proj2 (proj2 (constructor_checks_duplicates_first tc1_players))
             (init tc1_players)).
    reflexivity.
Defined.
